(** * Swiss pairing engine (src/app.py): shallow embedding and properties

    The development follows the Python source top to bottom: the [Player]
    and [Pairing] data classes, the [Tournament] snapshot (loading and
    ranking) and the [SwissPairingEngine] (late-joiner byes, odd-pool bye,
    greedy matching, colour assignment).

    Modelling conventions.
    - Python [int] is [Z]; [len] is [nat].
    - Python [float] is IEEE binary64: Rocq's primitive [float], with
      its rounding arithmetic, infinities and NaN.  [==] and [<] are
      [PrimFloat.eqb] and [PrimFloat.ltb], both false on a NaN.
    - Player objects are mutable and shared between [tournament.players],
      the pool [available_players] and the loop variables.  The objects of
      one tournament live in a store (the list [tournament.players], which
      [compute_pairings] never reorders); a reference is a position in
      that store.  The pool is a list of references.
    - An exception is a value of [exn]; a call returns a [result]. *)

From Stdlib Require Import ZArith Floats String List Bool Arith Lia.
From Stdlib Require Import Permutation Sorted.
Import ListNotations.

Local Open Scope string_scope.
Local Open Scope list_scope.

(* ================================================================= *)
(** ** Exceptions *)

Inductive exn : Type :=
| KeyError (key : string)
| ValueError (msg : string)
| TypeError (msg : string)
| Exception (msg : string).

Inductive result (A : Type) : Type :=
| Ok (a : A)
| Raise (e : exn).

Arguments Ok {A} a.
Arguments Raise {A} e.

Definition bind {A B : Type} (m : result A) (k : A -> result B) : result B :=
  match m with
  | Ok a => k a
  | Raise e => Raise e
  end.

Notation "x <- m ;; k" := (bind m (fun x => k))
  (at level 61, m at next level, right associativity).

(* ================================================================= *)
(* ================================================================= *)
(** ** Player *)

Inductive Color : Type := NONE | WHITE | BLACK.

Record Player : Type := mkPlayer {
  id : string;
  rating : Z;
  score : float;
  color_history : list string;
  opponents : list string;
  rank : Z;
  color_balance : Z;
  preferred_color : Color;
  has_bye : bool
}.

(** [list.count(x)] on a list of strings. *)
Definition count (x : string) (l : list string) : Z :=
  Z.of_nat (count_occ string_dec l x).

Definition calculate_color_balance (history : list string) : Z :=
  (count "white" history - count "black" history)%Z.

Definition determine_preferred_color (balance : Z) : Color :=
  if (balance >? 0)%Z then BLACK
  else if (balance <? 0)%Z then WHITE
  else NONE.

(** The dataclass constructor followed by [__post_init__]; [rank] keeps
    its default 0. *)
Definition new_Player (i : string) (r : Z) (s : float)
    (history opps : list string) (bye : bool) : Player :=
  let balance := calculate_color_balance history in
  {| id := i; rating := r; score := s;
     color_history := history; opponents := opps;
     rank := 0; color_balance := balance;
     preferred_color := determine_preferred_color balance;
     has_bye := bye |}.

Definition set_rank (k : Z) (p : Player) : Player :=
  {| id := id p; rating := rating p; score := score p;
     color_history := color_history p; opponents := opponents p;
     rank := k; color_balance := color_balance p;
     preferred_color := preferred_color p; has_bye := has_bye p |}.

Definition set_has_bye (b : bool) (p : Player) : Player :=
  {| id := id p; rating := rating p; score := score p;
     color_history := color_history p; opponents := opponents p;
     rank := rank p; color_balance := color_balance p;
     preferred_color := preferred_color p; has_bye := b |}.

Definition Color_eqb (a b : Color) : bool :=
  match a, b with
  | NONE, NONE | WHITE, WHITE | BLACK, BLACK => true
  | _, _ => false
  end.

Definition strings_eqb (a b : list string) : bool :=
  if list_eq_dec string_dec a b then true else false.

(** The [__eq__] a dataclass generates: the tuples of all fields are
    compared.  The scores of two players are two float objects, each made
    by its own conversion, so they are equal only by [==], which is false
    on a NaN. *)
Definition Player_eqb (p q : Player) : bool :=
  (id p =? id q)
  && (rating p =? rating q)%Z
  && PrimFloat.eqb (score p) (score q)
  && strings_eqb (color_history p) (color_history q)
  && strings_eqb (opponents p) (opponents q)
  && (rank p =? rank q)%Z
  && (color_balance p =? color_balance q)%Z
  && Color_eqb (preferred_color p) (preferred_color q)
  && Bool.eqb (has_bye p) (has_bye q).

(* ================================================================= *)
(** ** Pairing *)

Record Pairing : Type := mkPairing {
  white : string;
  black : string;
  is_bye : bool
}.

(** [Pairing.__init__(white, black)]. *)
Definition new_Pairing (w b : string) : Pairing :=
  {| white := w; black := b; is_bye := (b =? "") || (b =? "0") |}.

(** [Pairing(white)]: the default [black = ""]. *)
Definition bye_Pairing (w : string) : Pairing := new_Pairing w "".

(* ================================================================= *)
(** ** Python built-ins on lists *)

(** [list.sort(key=...)]: a stable sort; keys are compared with [<] only.
    An element is placed before the first element of the sorted tail whose
    key is not smaller, so equal keys keep their order.  Where [<] is a
    strict weak order on the keys this is what every stable sort returns.
    With a NaN among float keys [<] is no such order; a list in which no
    key is smaller than the key before it is then still left as it is,
    here as by Python's sort, which finds it to be one ascending run. *)
Section Sort.
Context {A K : Type}.
Variable ltb : K -> K -> bool.
Variable key : A -> K.

Fixpoint insert_by (x : A) (l : list A) : list A :=
  match l with
  | [] => [x]
  | y :: l' =>
      if ltb (key y) (key x) then y :: insert_by x l'
      else x :: y :: l'
  end.

Definition sort_by (l : list A) : list A :=
  fold_right insert_by [] l.

(** [max(l, key=...)] keeps the first maximal element: the candidate
    changes only for a strictly greater key. *)
Fixpoint max_from (cur : A) (l : list A) : A :=
  match l with
  | [] => cur
  | x :: l' => max_from (if ltb (key cur) (key x) then x else cur) l'
  end.

Definition max_by (l : list A) : result A :=
  match l with
  | [] => Raise (ValueError "max() arg is an empty sequence")
  | x :: l' => Ok (max_from x l')
  end.

(** [key_le a b]: [b] may follow [a] in a sorted list. *)
Definition key_le (a b : A) : Prop := ltb (key b) (key a) = false.

(** Equal keys: neither is smaller. *)
Definition same_key (a b : A) : bool :=
  negb (ltb (key a) (key b)) && negb (ltb (key b) (key a)).
End Sort.

(** [max(len(p.color_history) for p in players) if players else 0]. *)
Definition games_played (p : Player) : nat := List.length (color_history p).

Definition max_games_of (ps : list Player) : nat :=
  fold_right (fun p m => Nat.max (games_played p) m) 0%nat ps.

(* ================================================================= *)
(** ** Tournament *)

(** A JSON scalar as a record field may hold it. *)
Inductive pyval : Type :=
| VNone
| VBool (b : bool)
| VInt (z : Z)
| VFloat (f : float)
| VStr (s : string).

(** One player record: a dict in which every key may be absent.  The three
    required keys hold arbitrary scalars; the optional ones are taken at
    the types [PlayerInput] declares. *)
Record player_data : Type := mkData {
  pd_id : option pyval;
  pd_rating : option pyval;
  pd_score : option pyval;
  pd_color_history : option (list string);
  pd_opponents : option (list string);
  pd_has_bye : option bool
}.

(** [d[k]]: [KeyError(k)] when the key is absent. *)
Definition subscript (field : option pyval) (k : string) : result pyval :=
  match field with
  | Some v => Ok v
  | None => Raise (KeyError k)
  end.

(** [d.get(k, default)]. *)
Definition get {A : Type} (field : option A) (default : A) : A :=
  match field with
  | Some v => v
  | None => default
  end.

Record Tournament : Type := mkTournament {
  players : list Player;
  current_round : Z
}.

(** The key [(-p.score, -p.rating)] and the order of Python tuples: the
    first components that differ decide. *)
Definition rank_key (p : Player) : float * Z :=
  ((- score p)%float, (- rating p)%Z).

Definition key_ltb (a b : float * Z) : bool :=
  if PrimFloat.eqb (fst a) (fst b) then (snd a <? snd b)%Z
  else PrimFloat.ltb (fst a) (fst b).

(** [for i, player in enumerate(players): player.rank = i + 1]. *)
Fixpoint assign_ranks (i : Z) (ps : list Player) : list Player :=
  match ps with
  | [] => []
  | p :: ps' => set_rank (i + 1) p :: assign_ranks (i + 1) ps'
  end.

Definition update_ranks (ps : list Player) : list Player :=
  assign_ranks 0 (sort_by key_ltb rank_key ps).

Section Builtins.
(** Python's [str], [int] and [float] conversions, on which the loader
    depends, for any behaviour they may have. *)
Variable py_str : pyval -> string.
Variable py_int : pyval -> result Z.
Variable py_float : pyval -> result float.

Definition load_player (d : player_data) : result Player :=
  v_id <- subscript (pd_id d) "id" ;;
  let i := py_str v_id in
  v_rating <- subscript (pd_rating d) "rating" ;;
  r <- py_int v_rating ;;
  v_score <- subscript (pd_score d) "score" ;;
  s <- py_float v_score ;;
  Ok (new_Player i r s
        (get (pd_color_history d) [])
        (get (pd_opponents d) [])
        (get (pd_has_bye d) false)).

(** The loop of [load_from_json]; [acc] is [self.players] so far. *)
Fixpoint load_players (l : list player_data) (acc : list Player)
    : result (list Player) :=
  match l with
  | [] => Ok acc
  | d :: l' =>
      p <- load_player d ;;
      load_players l' (acc ++ [p])
  end.

(** [json_data] is the dict of the request; [None] when it has no
    ["players"] key. *)
Definition load_from_json (json_data : option (list player_data))
    (t : Tournament) : result Tournament :=
  match json_data with
  | None => Raise (ValueError "JSON must contain 'players' field")
  | Some l =>
      ps <- load_players l (players t) ;;
      match ps with
      | [] => Ok {| players := ps; current_round := current_round t |}
      | _ :: _ =>
          Ok {| players := ps;
                current_round := (Z.of_nat (max_games_of ps) + 1)%Z |}
      end
  end.

(** [Tournament.__init__]. *)
Definition new_Tournament (json_data : option (list player_data))
    : result Tournament :=
  t <- load_from_json json_data {| players := []; current_round := 1 |} ;;
  Ok {| players := update_ranks (players t);
        current_round := current_round t |}.
End Builtins.

(* ================================================================= *)
(** ** SwissPairingEngine *)

(** A reference to a Player object: its position in [tournament.players]. *)
Definition ref : Type := nat.

Definition no_player : Player := new_Player "" 0 0 [] [] false.

Definition deref (st : list Player) (r : ref) : Player := nth r st no_player.

(** [obj.has_bye = True] on the object [r] refers to. *)
Fixpoint mark_bye (r : ref) (st : list Player) : list Player :=
  match st, r with
  | [], _ => []
  | p :: st', O => set_has_bye true p :: st'
  | p :: st', S r' => p :: mark_bye r' st'
  end.

(** [l.remove(x)]: the first element that is [x] itself or equal to it
    under [__eq__] goes; [ValueError] when there is none. *)
Fixpoint list_remove (st : list Player) (x : ref) (l : list ref)
    : result (list ref) :=
  match l with
  | [] => Raise (ValueError "list.remove(x): x not in list")
  | e :: l' =>
      if (e =? x)%nat || Player_eqb (deref st e) (deref st x) then Ok l'
      else l'' <- list_remove st x l' ;; Ok (e :: l'')
  end.

Definition rank_of (st : list Player) (r : ref) : Z := rank (deref st r).

Definition select_bye_player (st : list Player) (pool : list ref)
    : result ref :=
  let no_bye_players :=
    filter (fun r => negb (has_bye (deref st r))) pool in
  match no_bye_players with
  | _ :: _ => max_by Z.ltb (rank_of st) no_bye_players
  | [] => max_by Z.ltb (rank_of st) pool
  end.

(** [x in l] on strings. *)
Definition mem (x : string) (l : list string) : bool :=
  existsb (String.eqb x) l.

Definition score_gap (st : list Player) (player : ref) (p : ref) : float :=
  PrimFloat.abs (score (deref st p) - score (deref st player))%float.

(** [find_best_opponent] returns the opponent and the candidate list as
    the call leaves it: in the fallback [valid_opponents] is the caller's
    list itself, which the sort then reorders in place. *)
Definition find_best_opponent (st : list Player) (player : ref)
    (candidates : list ref) : option ref * list ref :=
  let valid_opponents :=
    filter (fun p => negb (mem (id (deref st p))
                               (opponents (deref st player)))) candidates in
  match valid_opponents with
  | _ :: _ =>
      (hd_error (sort_by PrimFloat.ltb (score_gap st player) valid_opponents),
       candidates)
  | [] =>
      match candidates with
      | [] => (None, candidates)
      | _ :: _ =>
          let sorted :=
            sort_by PrimFloat.ltb (score_gap st player) candidates in
          (hd_error sorted, sorted)
      end
  end.

Definition assign_colors (player1 player2 : Player) : Player * Player :=
  if (color_balance player1 >? color_balance player2)%Z then
    (player2, player1)
  else if (color_balance player2 >? color_balance player1)%Z then
    (player1, player2)
  else if (rating player1 >=? rating player2)%Z then
    (player1, player2)
  else
    (player2, player1).

(** The local state of one [compute_pairings] call. *)
Record engine : Type := mkEngine {
  store : list Player;
  available_players : list ref;
  pairings : list Pairing
}.

(** The loop over [late_joiners]. *)
Fixpoint late_joiner_loop (late_joiners : list ref) (s : engine)
    : result engine :=
  match late_joiners with
  | [] => Ok s
  | late_joiner :: rest =>
      pool <- list_remove (store s) late_joiner (available_players s) ;;
      let st := mark_bye late_joiner (store s) in
      late_joiner_loop rest
        {| store := st;
           available_players := pool;
           pairings :=
             pairings s ++ [bye_Pairing (id (deref st late_joiner))] |}
  end.

(** The odd-pool bye. *)
Definition odd_pool_bye (s : engine) : result engine :=
  if (List.length (available_players s) mod 2 =? 1)%nat then
    bye_player <- select_bye_player (store s) (available_players s) ;;
    pool <- list_remove (store s) bye_player (available_players s) ;;
    let st := mark_bye bye_player (store s) in
    Ok {| store := st;
          available_players := pool;
          pairings := pairings s ++ [bye_Pairing (id (deref st bye_player))] |}
  else Ok s.

Definition no_opponent (st : list Player) (player1 : ref) : exn :=
  Exception ("No valid opponent found for player "
             ++ id (deref st player1))%string.

(** One turn of the [while] loop, entered with at least two players:
    [player1] is popped, [rest] is what remains of the pool. *)
Definition matching_step (s : engine) (player1 : ref) (rest : list ref)
    : result engine :=
  let st := store s in
  match find_best_opponent st player1 rest with
  | (None, _) => Raise (no_opponent st player1)
  | (Some player2, pool) =>
      pool' <- list_remove st player2 pool ;;
      let (white_player, black_player) :=
        assign_colors (deref st player1) (deref st player2) in
      Ok {| store := st;
            available_players := pool';
            pairings := pairings s
                        ++ [new_Pairing (id white_player) (id black_player)] |}
  end.

(** [while len(available_players) >= 2]; [None] when [fuel] turns do not
    reach the end of the loop. *)
Fixpoint matching_loop (fuel : nat) (s : engine) : option (result engine) :=
  match available_players s with
  | player1 :: ((_ :: _) as rest) =>
      match fuel with
      | O => None
      | S fuel' =>
          match matching_step s player1 rest with
          | Ok s' => matching_loop fuel' s'
          | Raise e => Some (Raise e)
          end
      end
  | _ => Some (Ok s)
  end.

Definition late_joiners_of (st : list Player) (pool : list ref) : list ref :=
  let max_games := max_games_of (map (deref st) pool) in
  filter (fun r => (games_played (deref st r) <? max_games)%nat) pool.

(** The state when the late-joiner loop starts. *)
Definition start (st : list Player) : engine :=
  {| store := st;
     available_players := seq 0 (List.length st);
     pairings := [] |}.

(** [compute_pairings], which reads [tournament.players] only: [st] is
    that list.  The result holds the pairings returned and the players as
    the call leaves them.  Every turn of the matching loop removes two
    players, so as many turns as there are players always suffice. *)
Definition compute_pairings (st : list Player)
    : option (result (list Pairing * list Player)) :=
  let s0 := start st in
  match
    (s1 <- late_joiner_loop (late_joiners_of st (available_players s0)) s0 ;;
     odd_pool_bye s1)
  with
  | Raise e => Some (Raise e)
  | Ok s2 =>
      match matching_loop (List.length st) s2 with
      | None => None
      | Some (Raise e) => Some (Raise e)
      | Some (Ok s3) => Some (Ok (pairings s3, store s3))
      end
  end.

(** *** Test snapshots *)

Definition P (i : string) (r : Z) (s : float) (games : list string)
    (opps : list string) (bye : bool) : Player :=
  new_Player i r s games opps bye.

(* ================================================================= *)
(** ** Vocabulary of the properties *)

(** Two stores hold the same players up to their [has_bye] flags. *)
Definition agree (st st' : list Player) : Prop :=
  List.length st' = List.length st /\
  forall x, set_has_bye false (deref st' x) = set_has_bye false (deref st x).

(** The invariant [update_ranks] establishes: the object at position [r]
    has rank [r + 1]. *)
Definition ranked (st : list Player) : Prop :=
  forall r, (r < List.length st)%nat -> rank_of st r = (Z.of_nat r + 1)%Z.

Definition in_store (st : list Player) (l : list ref) : Prop :=
  Forall (fun e => (e < List.length st)%nat) l.

Definition differs (x : ref) (e : ref) : bool := negb (e =? x)%nat.

Definition outside (l : list ref) (e : ref) : bool :=
  negb (existsb (Nat.eqb e) l).

(** What a pairing was built from: one player (a bye) or two. *)
Inductive slot : Type :=
| Bye (r : ref)
| Game (w b : ref).

Definition slot_refs (x : slot) : list ref :=
  match x with
  | Bye r => [r]
  | Game w b => [w; b]
  end.

Definition slot_pairing (st : list Player) (x : slot) : Pairing :=
  match x with
  | Bye r => bye_Pairing (id (deref st r))
  | Game w b => new_Pairing (id (deref st w)) (id (deref st b))
  end.

Definition is_game (x : slot) : Prop :=
  match x with
  | Bye _ => False
  | Game _ _ => True
  end.

(** The invariant of the engine's loops. *)
Record inv (s : engine) : Prop := mkInv {
  inv_ranked : ranked (store s);
  inv_in_store : in_store (store s) (available_players s);
  inv_NoDup : NoDup (available_players s)
}.

(** A late joiner of the snapshot [st]. *)
Definition late (st : list Player) (r : ref) : bool :=
  (games_played (deref st r) <? max_games_of st)%nat.

(** The references of a snapshot, in rank order. *)
Definition refs (st : list Player) : list ref := seq 0 (List.length st).

Definition bye_of (st : list Player) (r : ref) : Pairing :=
  bye_Pairing (id (deref st r)).

Definition never_byed (st : list Player) (r : ref) : bool :=
  negb (has_bye (deref st r)).

(** The policy of the odd-pool bye: [r] is a pool member; while some
    member never had a bye, [r] is one of those and no such member has a
    larger rank; when all had one, no member has a larger rank. *)
Definition bye_choice (st : list Player) (pool : list ref) (r : ref) : Prop :=
  In r pool /\
  (forall r', In r' pool -> never_byed st r' = true ->
     never_byed st r = true /\ (rank_of st r' <= rank_of st r)%Z) /\
  ((forall r', In r' pool -> never_byed st r' = false) ->
     forall r', In r' pool -> (rank_of st r' <= rank_of st r)%Z).

(** [p] has not yet played the anchor [player]. *)
Definition fresh (st : list Player) (player p : ref) : bool :=
  negb (mem (id (deref st p)) (opponents (deref st player))).






(** The late joiners of a snapshot and the pool they leave, both in rank
    order. *)
Definition late_joiners (st : list Player) : list ref :=
  filter (late st) (refs st).

Definition on_time (st : list Player) (r : ref) : bool := negb (late st r).

Definition pool_of (st : list Player) : list ref :=
  filter (on_time st) (refs st).

(** How a run of [compute_pairings] on [st] went: [odd] holds the
    receiver of the odd-pool bye, if any, [plan] the games in matching
    order, [out] is the list returned and [st'] the players afterwards.
    The late-joiner loop leaves the players [st1], in which the pool
    members have the flags of the snapshot, and the pool [pool_of st], on
    which [select_bye_player] is then called. *)
Record run (st : list Player) (odd : list ref) (plan : list slot)
    (out : list Pairing) (st' : list Player) : Prop := mkRun {
  run_late :
    exists st1,
      late_joiner_loop (late_joiners_of st (refs st)) (start st) =
        Ok {| store := st1;
              available_players := pool_of st;
              pairings := map (bye_of st) (late_joiners st) |} /\
      (forall x, In x (pool_of st) ->
                 has_bye (deref st1 x) = has_bye (deref st x)) /\
      (forall r, odd = [r] -> select_bye_player st1 (pool_of st) = Ok r);
  run_odd :
    if Nat.even (List.length (pool_of st)) then odd = []
    else exists r, odd = [r] /\ bye_choice st (pool_of st) r;
  run_out :
    out = map (bye_of st) (late_joiners st) ++ map (bye_of st) odd
          ++ map (slot_pairing st) plan;
  run_result : compute_pairings st = Some (Ok (out, st'));
  run_cover :
    Permutation (late_joiners st ++ odd ++ flat_map slot_refs plan) (refs st);
  run_games : Forall is_game plan;
  run_agree : agree st st';
  run_has_bye :
    forall x, has_bye (deref st' x) =
              has_bye (deref st x)
              || existsb (Nat.eqb x) (late_joiners st ++ odd)
}.

(** The rank order: [a] may stand before [b] when it has the greater
    score or, at equal scores, a rating at least as high. *)
Definition ranks_before (a b : Player) : Prop :=
  (score b <? score a)%float = true \/
  ((score a =? score b)%float = true /\ (rating b <= rating a)%Z).

(** Players the rank order does not separate. *)
Definition tied (a b : Player) : bool :=
  (score a =? score b)%float && (rating a =? rating b)%Z.

(** No player of the list has a NaN for a score. *)
Definition scored (ps : list Player) : Prop :=
  Forall (fun p => is_nan (score p) = false) ps.

(** A player with the rank set aside, to compare a snapshot with the
    records it was built from. *)
Definition unranked (p : Player) : Player := set_rank 0 p.

(** The player ids a pairing stands for: the white id, and the black id
    unless the pairing is flagged as a bye. *)
Definition pairing_ids (p : Pairing) : list string :=
  if is_bye p then [white p] else [white p; black p].

(** [x] is one of the players of the pairing [p]. *)
Definition mentions (x : string) (p : Pairing) : bool :=
  existsb (String.eqb x) (pairing_ids p).

(** [x] is written in one of the two id fields of [p]. *)
Definition names (x : string) (p : Pairing) : bool :=
  (white p =? x) || (black p =? x).

(** An id that [Pairing.__init__] does not read as "no opponent". *)
Definition plain_id (x : string) : Prop := x <> "" /\ x <> "0".

Definition plain_ids (ps : list Player) : Prop :=
  forall p, In p ps -> plain_id (id p).

(** The slots of a run, in the order their pairings are emitted. *)
Definition slots_of (st : list Player) (odd : list ref) (plan : list slot)
    : list slot :=
  map Bye (late_joiners st) ++ map Bye odd ++ plan.

(** *** Further test snapshots *)

Definition five_records : list Player :=
  [P "a" 1800 2 ["white"; "black"] ["x"; "y"] false;
   P "b" 1700 2 ["black"; "white"] ["x"; "y"] false;
   P "c" 1600 1 ["white"; "black"] ["x"; "y"] false;
   P "d" 1500 1 ["black"; "white"] ["x"; "y"] false;
   P "e" 1400 0 ["white"; "black"] ["x"; "y"] false].

(** Two players, one of them with the id "0". *)
Definition zero_id : list Player :=
  update_ranks [P "1" 1500 1 [] [] false; P "0" 1400 1 [] [] false].

(** Three players, one of them with the empty id. *)
Definition empty_id : list Player :=
  update_ranks [P "a" 1600 1 [] [] false;
                P "" 1500 1 [] [] false;
                P "b" 1400 0 [] [] false].

(** The number of pairings flagged as byes and of the others. *)
Definition byes (out : list Pairing) : nat :=
  List.length (filter is_bye out).

Definition decided (out : list Pairing) : nat :=
  List.length (filter (fun p => negb (is_bye p)) out).

(** The example of the specification: five players, equal games played,
    none byed yet. *)
Definition five : list Player := update_ranks five_records.

(** The [except] clauses of the request handlers: a [ValueError] is
    answered as invalid input (400), any other exception as an internal
    error (500). *)
Definition http_status (e : exn) : Z :=
  match e with
  | ValueError _ => 400
  | _ => 500
  end.

(** A record that lacks a required field, or whose rating or score the
    conversion rejects. *)
Definition bad_record (py_int : pyval -> result Z)
    (py_float : pyval -> result float) (d : player_data) : Prop :=
  pd_id d = None \/ pd_rating d = None \/ pd_score d = None \/
  (exists v e, pd_rating d = Some v /\ py_int v = Raise e) \/
  (exists v e, pd_score d = Some v /\ py_float v = Raise e).

(** The exception a bad record ends the load with: the [KeyError] of an
    absent key, or the error of the conversion itself. *)
Definition raised_for (py_int : pyval -> result Z)
    (py_float : pyval -> result float) (d : player_data) (e : exn) : Prop :=
  (pd_id d = None /\ e = KeyError "id") \/
  (pd_rating d = None /\ e = KeyError "rating") \/
  (pd_score d = None /\ e = KeyError "score") \/
  (exists v, pd_rating d = Some v /\ py_int v = Raise e) \/
  (exists v, pd_score d = Some v /\ py_float v = Raise e).

(** A record without the key "rating". *)
Definition no_rating : player_data :=
  {| pd_id := Some (VStr "p1"); pd_rating := None;
     pd_score := Some (VFloat 1);
     pd_color_history := None; pd_opponents := None; pd_has_bye := None |}.

(** A record whose rating is the value [v]. *)
Definition with_rating (v : pyval) : player_data :=
  {| pd_id := Some (VStr "p1"); pd_rating := Some v;
     pd_score := Some (VFloat 1);
     pd_color_history := None; pd_opponents := None; pd_has_bye := None |}.

(** Conversions that accept the values of the declared type only. *)
Definition typed_str (v : pyval) : string :=
  match v with
  | VStr s => s
  | _ => "?"
  end.

Definition typed_int (v : pyval) : result Z :=
  match v with
  | VInt z => Ok z
  | _ => Raise (TypeError "int")
  end.

Definition typed_float (v : pyval) : result float :=
  match v with
  | VFloat q => Ok q
  | _ => Raise (TypeError "float")
  end.

(** Four players, one of whom ("y", second by score) has played one game
    and the others two. *)
Definition four : list Player :=
  update_ranks
    [P "w" 1500 2 ["white"; "black"] ["x"; "z"] false;
     P "x" 1500 1 ["black"; "white"] ["w"; "z"] false;
     P "y" 1900 1.5 ["white"] ["q"] false;
     P "z" 1500 0 ["white"; "black"] ["w"; "x"] false].

(** Two players equal in score, rating and colour balance. *)
(** Records with a NaN score between a lower and a higher score. *)
Definition nan_records : list Player :=
  [P "a" 1500 1 [] [] false;
   P "n" 1500 nan [] [] false;
   P "b" 1500 3 [] [] false].


Definition twins : list Player :=
  update_ranks [P "m" 1500 1 [] [] false; P "n" 1500 1 [] [] false].

(* ================================================================= *)
(** ** Request handlers *)

(** [sub in s] on strings: [sub] starts at some position of [s]. *)
Fixpoint contains (sub s : string) : bool :=
  String.prefix sub s
  || match s with
     | EmptyString => false
     | String _ s' => contains sub s'
     end.

(** The request models, as pydantic hands them to the handlers: every
    field present and of its declared type. *)
Record PlayerInput : Type := mkPlayerInput {
  in_id : string;
  in_rating : Z;
  in_score : float;
  in_color_history : list string;
  in_opponents : list string;
  in_has_bye : bool
}.

Record TournamentInput : Type := mkTournamentInput {
  in_players : list PlayerInput;
  in_system : string
}.

(** The response models. *)
Record PairingResponse : Type := mkPairingResponse {
  resp_white : string;
  resp_black : string;
  resp_is_bye : bool
}.

Record PairingsResult : Type := mkPairingsResult {
  res_pairings : list PairingResponse;
  total_pairings : Z;
  round_number : Z;
  res_system : string
}.

(** One entry of [players_info]. *)
Record player_info : Type := mkInfo {
  info_id : string;
  info_rating : Z;
  info_score : float;
  info_rank : Z;
  info_color_balance : Z;
  info_games_played : Z;
  info_warnings : list string
}.

Record TournamentInfo : Type := mkTournamentInfo {
  total_players : Z;
  info_current_round : Z;
  info_system : string;
  info_players : list player_info
}.

(** The dict [add_player] returns. *)
Record added : Type := mkAdded {
  message : string;
  late_joiner : bool;
  bye_awarded : bool
}.

(** The [detail] of an [HTTPException]: a fixed text, or a prefix
    followed by [str(e)] of the exception an [except] clause caught, a
    Python exception or an [HTTPException] itself. *)
Inductive detail : Type :=
| Text (s : string)
| Caught (prefix : string) (e : exn)
| CaughtHTTP (prefix : string) (status : Z) (inner : detail).

Record HTTPException : Type := mkHTTP {
  status_code : Z;
  http_detail : detail
}.

(** What a handler ends with: the value returned or the [HTTPException]
    raised. *)
Inductive response (A : Type) : Type :=
| Respond (a : A)
| Abort (h : HTTPException).

Arguments Respond {A} a.
Arguments Abort {A} h.

Inductive SwissSystem : Type := DUTCH | BURSTEIN.

Record SwissPairingEngine : Type := mkSwissPairingEngine {
  swiss_system : SwissSystem
}.

(** [tournament_data.dict()]: each player becomes a dict with all six
    keys; the key "system" is not read by [Tournament]. *)
Definition dict_of_player (p : PlayerInput) : player_data :=
  {| pd_id := Some (VStr (in_id p));
     pd_rating := Some (VInt (in_rating p));
     pd_score := Some (VFloat (in_score p));
     pd_color_history := Some (in_color_history p);
     pd_opponents := Some (in_opponents p);
     pd_has_bye := Some (in_has_bye p) |}.

Definition dict_of (tournament_data : TournamentInput)
    : option (list player_data) :=
  Some (map dict_of_player (in_players tournament_data)).

(** The two [except] clauses of [generate_pairings] and
    [check_tournament]. *)
Definition except_clauses (e : exn) : HTTPException :=
  match e with
  | ValueError _ =>
      {| status_code := 400; http_detail := Caught "Invalid input: " e |}
  | _ =>
      {| status_code := 500; http_detail := Caught "Internal error: " e |}
  end.

(** The [PairingResponse] built for a pairing. *)
Definition to_response (pairing : Pairing) : PairingResponse :=
  {| resp_white := white pairing;
     resp_black := if is_bye pairing then "" else black pairing;
     resp_is_bye := is_bye pairing |}.

(** The warning of [check_tournament] for a player. *)
Definition mismatched (player : Player) : bool :=
  negb (List.length (color_history player)
        =? List.length (opponents player))%nat.

Definition warning_of (player : Player) : string :=
  ("Player " ++ id player ++ " has mismatched history lengths")%string.

Definition warnings_of (ps : list Player) : list string :=
  map warning_of (filter mismatched ps).

Definition info_of (warnings : list string) (player : Player) : player_info :=
  {| info_id := id player;
     info_rating := rating player;
     info_score := score player;
     info_rank := rank player;
     info_color_balance := color_balance player;
     info_games_played := Z.of_nat (List.length (color_history player));
     info_warnings := filter (contains (id player)) warnings |}.

Section Handlers.
(** Python's conversions, as in the loader, and [str.lower]. *)
Variable py_str : pyval -> string.
Variable py_int : pyval -> result Z.
Variable py_float : pyval -> result float.
Variable py_lower : string -> string.

Definition select_system (tournament_data : TournamentInput) : SwissSystem :=
  if (py_lower (in_system tournament_data) =? "burstein")%string
  then BURSTEIN else DUTCH.

(** [generate_pairings]; [None] stands for a matching loop out of fuel.
    The engine object holds the system chosen, which [compute_pairings]
    does not read. *)
Definition generate_pairings (tournament_data : TournamentInput)
    : option (response PairingsResult) :=
  let json_data := dict_of tournament_data in
  let swiss_system := select_system tournament_data in
  match new_Tournament py_str py_int py_float json_data with
  | Raise e => Some (Abort (except_clauses e))
  | Ok tournament =>
      let engine := {| swiss_system := swiss_system |} in
      match compute_pairings (players tournament) with
      | None => None
      | Some (Raise e) => Some (Abort (except_clauses e))
      | Some (Ok (computed, _)) =>
          let pairing_responses := map to_response computed in
          Some (Respond
                  {| res_pairings := pairing_responses;
                     total_pairings :=
                       Z.of_nat (List.length pairing_responses);
                     round_number := current_round tournament;
                     res_system := in_system tournament_data |})
      end
  end.

(** [check_tournament]. *)
Definition check_tournament (tournament_data : TournamentInput)
    : response TournamentInfo :=
  let json_data := dict_of tournament_data in
  match new_Tournament py_str py_int py_float json_data with
  | Raise e => Abort (except_clauses e)
  | Ok tournament =>
      let warnings := warnings_of (players tournament) in
      let players_info := map (info_of warnings) (players tournament) in
      Respond {| total_players := Z.of_nat (List.length (players tournament));
                 info_current_round := current_round tournament;
                 info_system := in_system tournament_data;
                 info_players := players_info |}
  end.
End Handlers.

(** [for _ in range(n): player_data.score += 0.5]. *)
Fixpoint award (n : nat) (s : float) : float :=
  match n with
  | O => s
  | S n' => award n' (s + 0.5)%float
  end.

(** The body of the [try] block of [add_player]: the value returned with
    the request object as the body leaves it, or the exception raised. *)
Definition add_player_try (player_data : PlayerInput) (round : Z)
    : response (added * PlayerInput) :=
  if (round >? 2)%Z then
    Abort {| status_code := 400;
             http_detail :=
               Text "Cannot add players after round 2 has started" |}
  else
    let player_data' :=
      if (round >? 1)%Z then
        {| in_id := in_id player_data;
           in_rating := in_rating player_data;
           in_score := award (Z.to_nat (round - 1)) (in_score player_data);
           in_color_history := in_color_history player_data;
           in_opponents := in_opponents player_data;
           in_has_bye := true |}
      else player_data in
    Respond ({| message := ("Player " ++ in_id player_data'
                            ++ " added successfully")%string;
                late_joiner := (round >? 1)%Z;
                bye_awarded := (round >? 1)%Z |},
             player_data').

(** [add_player]: the [except Exception] clause catches what the body
    raises, an [HTTPException] included. *)
Definition add_player (player_data : PlayerInput) (round : Z)
    : response (added * PlayerInput) :=
  match add_player_try player_data round with
  | Respond r => Respond r
  | Abort h =>
      Abort {| status_code := 500;
               http_detail :=
                 CaughtHTTP "Error adding player: "
                            (status_code h) (http_detail h) |}
  end.

(* ================================================================= *)
(** ** Vocabulary of the further properties *)








(** How many games of its history a player had with the colour [c]. *)
Definition games_as (c : string) (p : Player) : Z :=
  Z.of_nat (List.length (filter (String.eqb c) (color_history p))).

(** The derived fields of a player agree with its history: the balance
    is the surplus of whites, and the preferred colour is the one the
    player had less often, if any. *)
Definition derived_ok (p : Player) : Prop :=
  color_balance p = (games_as "white" p - games_as "black" p)%Z /\
  (preferred_color p = BLACK <-> (games_as "black" p < games_as "white" p)%Z) /\
  (preferred_color p = WHITE <-> (games_as "white" p < games_as "black" p)%Z) /\
  (preferred_color p = NONE <-> games_as "white" p = games_as "black" p).

(** A record the loader accepts. *)
Definition good_record (py_int : pyval -> result Z)
    (py_float : pyval -> result float) (d : player_data) : Prop :=
  exists vi vr vs r s,
    pd_id d = Some vi /\
    pd_rating d = Some vr /\ py_int vr = Ok r /\
    pd_score d = Some vs /\ py_float vs = Ok s.

(** The conversions leave a value of the target type as it is. *)
Definition typed (py_str : pyval -> string) (py_int : pyval -> result Z)
    (py_float : pyval -> result float) : Prop :=
  (forall s, py_str (VStr s) = s) /\
  (forall z, py_int (VInt z) = Ok z) /\
  (forall q, py_float (VFloat q) = Ok q).

(** The player the loader builds from a request player. *)
Definition player_of (p : PlayerInput) : Player :=
  new_Player (in_id p) (in_rating p) (in_score p)
             (in_color_history p) (in_opponents p) (in_has_bye p).

(** A request with two players, the second with one opponent too many. *)
Definition request : TournamentInput :=
  {| in_players :=
       [{| in_id := "p1"; in_rating := 1500; in_score := 1;
           in_color_history := ["white"]; in_opponents := ["p2"];
           in_has_bye := false |};
        {| in_id := "p2"; in_rating := 1600; in_score := 0;
           in_color_history := ["black"]; in_opponents := ["p1"; "p3"];
           in_has_bye := false |}];
     in_system := "dutch" |}.

Definition typed_lower (s : string) : string := s.

(* ================================================================= *)
(** ** Vocabulary of the float order

    [PrimFloat.ltb] and [PrimFloat.eqb] are specified on [spec_float]
    ([SFltb], [SFeqb]).  Away from NaN they are the lexicographic order
    and equality of three integers: the class of the float (infinities
    outside the finite floats, the zeros between the negative and the
    positive ones), its exponent and its mantissa, the last two with the
    sign of the float. *)

Definition sf_nan (x : spec_float) : bool :=
  match x with S754_nan => true | _ => false end.

Definition sf_class (x : spec_float) : Z :=
  match x with
  | S754_zero _ => 0
  | S754_infinity s => if s then -2 else 2
  | S754_nan => 0
  | S754_finite s _ _ => if s then -1 else 1
  end.

Definition sf_exp (x : spec_float) : Z :=
  match x with
  | S754_finite s _ e => if s then - e else e
  | _ => 0
  end.

Definition sf_mant (x : spec_float) : Z :=
  match x with
  | S754_finite s m _ => if s then Z.neg m else Z.pos m
  | _ => 0
  end.

Definition sf_lt (x y : spec_float) : Prop :=
  (sf_class x < sf_class y \/
   (sf_class x = sf_class y /\
    (sf_exp x < sf_exp y \/
     (sf_exp x = sf_exp y /\ sf_mant x < sf_mant y))))%Z.

Definition sf_eq (x y : spec_float) : Prop :=
  sf_class x = sf_class y /\ sf_exp x = sf_exp y /\ sf_mant x = sf_mant y.

(** A key of the rank order without NaN. *)
Definition key_ok (k : float * Z) : Prop := is_nan (fst k) = false.


(** No condition on a key. *)
Definition any_key {K : Type} (k : K) : Prop := True.

(* ================================================================= *)
(** * Properties *)

(** ** Orders used as sort keys *)

(** [SFcompare] by cases, against the three integers. *)
Ltac sf_case :=
  let G := fresh "G" in
  let G1 := fresh "G" in
  let G2 := fresh "G" in
  split;
  [ intro G; try discriminate G; repeat split; lia
  | intros (G1 & G2 & G); try discriminate; try reflexivity; lia ].

Lemma SFltb_iff (x y : spec_float) :
  SFltb x y = true <-> sf_nan x = false /\ sf_nan y = false /\ sf_lt x y.
Proof.
  unfold SFltb, sf_lt.
  destruct x as [[|]|[|]| |[|] m1 e1], y as [[|]|[|]| |[|] m2 e2];
    cbn [SFcompare sf_nan sf_class sf_exp sf_mant];
    try sf_case.
  - change (Pos.compare_cont Eq m1 m2) with (m1 ?= m2)%positive.
    destruct (Z.compare_spec e1 e2), (Pos.compare_spec m1 m2); cbn [CompOpp];
      sf_case.
  - change (Pos.compare_cont Eq m1 m2) with (m1 ?= m2)%positive.
    destruct (Z.compare_spec e1 e2), (Pos.compare_spec m1 m2); cbn [CompOpp];
      sf_case.
Qed.

Lemma SFeqb_iff (x y : spec_float) :
  SFeqb x y = true <-> sf_nan x = false /\ sf_nan y = false /\ sf_eq x y.
Proof.
  unfold SFeqb, sf_eq.
  destruct x as [[|]|[|]| |[|] m1 e1], y as [[|]|[|]| |[|] m2 e2];
    cbn [SFcompare sf_nan sf_class sf_exp sf_mant];
    try sf_case.
  - change (Pos.compare_cont Eq m1 m2) with (m1 ?= m2)%positive.
    destruct (Z.compare_spec e1 e2), (Pos.compare_spec m1 m2); cbn [CompOpp];
      sf_case.
  - change (Pos.compare_cont Eq m1 m2) with (m1 ?= m2)%positive.
    destruct (Z.compare_spec e1 e2), (Pos.compare_spec m1 m2); cbn [CompOpp];
      sf_case.
Qed.

Lemma is_nan_sf (x : float) : is_nan x = sf_nan (Prim2SF x).
Proof.
  unfold is_nan. rewrite FloatAxioms.eqb_spec.
  destruct (SFeqb (Prim2SF x) (Prim2SF x)) eqn:E.
  - apply SFeqb_iff in E. destruct E as (E & _). now rewrite E.
  - destruct (sf_nan (Prim2SF x)) eqn:N; [reflexivity|].
    assert (SFeqb (Prim2SF x) (Prim2SF x) = true) as H
      by (apply SFeqb_iff; repeat split; auto).
    congruence.
Qed.

Lemma fltb_iff (x y : float) :
  (x <? y)%float = true <->
  is_nan x = false /\ is_nan y = false /\ sf_lt (Prim2SF x) (Prim2SF y).
Proof. rewrite FloatAxioms.ltb_spec, !is_nan_sf. apply SFltb_iff. Qed.

Lemma feqb_iff (x y : float) :
  (x =? y)%float = true <->
  is_nan x = false /\ is_nan y = false /\ sf_eq (Prim2SF x) (Prim2SF y).
Proof. rewrite FloatAxioms.eqb_spec, !is_nan_sf. apply SFeqb_iff. Qed.

Lemma sf_opp_class (x : spec_float) : sf_class (SFopp x) = (- sf_class x)%Z.
Proof. now destruct x as [[|]|[|]| |[|] m e]. Qed.

Lemma sf_opp_exp (x : spec_float) : sf_exp (SFopp x) = (- sf_exp x)%Z.
Proof. destruct x as [[|]|[|]| |[|] m e]; cbn; lia. Qed.

Lemma sf_opp_mant (x : spec_float) : sf_mant (SFopp x) = (- sf_mant x)%Z.
Proof. destruct x as [[|]|[|]| |[|] m e]; cbn; lia. Qed.

Lemma is_nan_opp (x : float) : is_nan (- x) = is_nan x.
Proof.
  rewrite !is_nan_sf, FloatAxioms.opp_spec.
  now destruct (Prim2SF x) as [[|]|[|]| |[|] m e].
Qed.

Lemma fltb_opp (x y : float) : (- x <? - y)%float = (y <? x)%float.
Proof.
  apply eq_true_iff_eq. rewrite !fltb_iff, !is_nan_opp, !FloatAxioms.opp_spec.
  unfold sf_lt. rewrite !sf_opp_class, !sf_opp_exp, !sf_opp_mant.
  intuition lia.
Qed.

Lemma feqb_opp (x y : float) : (- x =? - y)%float = (x =? y)%float.
Proof.
  apply eq_true_iff_eq. rewrite !feqb_iff, !is_nan_opp, !FloatAxioms.opp_spec.
  unfold sf_eq. rewrite !sf_opp_class, !sf_opp_exp, !sf_opp_mant.
  intuition lia.
Qed.

(** [<] on floats is asymmetric, and it is cotransitive through every
    float that is no NaN: a strict weak order away from NaN. *)
Lemma fltb_asym (a b : float) :
  (a <? b)%float = true -> (b <? a)%float = false.
Proof.
  intro H. destruct (b <? a)%float eqn:E; [|reflexivity].
  apply fltb_iff in H, E. unfold sf_lt in *. exfalso. intuition lia.
Qed.


Lemma SFleb_iff (x y : spec_float) :
  SFleb x y = true <->
  sf_nan x = false /\ sf_nan y = false /\ (sf_lt x y \/ sf_eq x y).
Proof.
  unfold SFleb, sf_lt, sf_eq.
  destruct x as [[|]|[|]| |[|] m1 e1], y as [[|]|[|]| |[|] m2 e2];
    cbn [SFcompare sf_nan sf_class sf_exp sf_mant];
    try sf_case.
  - change (Pos.compare_cont Eq m1 m2) with (m1 ?= m2)%positive.
    destruct (Z.compare_spec e1 e2), (Pos.compare_spec m1 m2); cbn [CompOpp];
      sf_case.
  - change (Pos.compare_cont Eq m1 m2) with (m1 ?= m2)%positive.
    destruct (Z.compare_spec e1 e2), (Pos.compare_spec m1 m2); cbn [CompOpp];
      sf_case.
Qed.

Lemma fleb_iff (x y : float) :
  (x <=? y)%float = true <->
  is_nan x = false /\ is_nan y = false /\
  (sf_lt (Prim2SF x) (Prim2SF y) \/ sf_eq (Prim2SF x) (Prim2SF y)).
Proof. rewrite FloatAxioms.leb_spec, !is_nan_sf. apply SFleb_iff. Qed.

Lemma sf_total (x y : spec_float) : sf_lt x y \/ sf_eq x y \/ sf_lt y x.
Proof. unfold sf_lt, sf_eq. lia. Qed.


Lemma fltb_irrefl (a : float) : (a <? a)%float = false.
Proof.
  destruct (a <? a)%float eqn:E; [|reflexivity].
  now rewrite (fltb_asym _ _ E) in E.
Qed.

Lemma Zltb_asym (a b : Z) : (a <? b)%Z = true -> (b <? a)%Z = false.
Proof. rewrite Z.ltb_lt, Z.ltb_ge. lia. Qed.

Lemma Zltb_cotrans (a b c : Z) :
  any_key b ->
  (a <? c)%Z = true -> (a <? b)%Z = true \/ (b <? c)%Z = true.
Proof. intros _. rewrite !Z.ltb_lt. lia. Qed.

Lemma key_ltb_iff (a b : float * Z) :
  key_ltb a b = true <->
  (fst a <? fst b)%float = true \/
  ((fst a =? fst b)%float = true /\ (snd a < snd b)%Z).
Proof.
  unfold key_ltb. destruct (fst a =? fst b)%float eqn:E.
  - rewrite Z.ltb_lt. split; [now right|]. intros [H|[_ H]]; [|exact H].
    exfalso. apply feqb_iff in E. apply fltb_iff in H.
    unfold sf_lt, sf_eq in *. intuition lia.
  - split; [now left|]. now intros [H|[H _]].
Qed.

Lemma key_ltb_asym (a b : float * Z) :
  key_ltb a b = true -> key_ltb b a = false.
Proof.
  intro H. destruct (key_ltb b a) eqn:E; [|reflexivity]. exfalso.
  rewrite key_ltb_iff, fltb_iff, feqb_iff in H, E.
  unfold sf_lt, sf_eq in *. intuition lia.
Qed.

Lemma key_ltb_cotrans (a b c : float * Z) :
  key_ok b ->
  key_ltb a c = true -> key_ltb a b = true \/ key_ltb b c = true.
Proof.
  unfold key_ok. intros N H.
  rewrite !key_ltb_iff, !fltb_iff, !feqb_iff in *.
  destruct (sf_total (Prim2SF (fst a)) (Prim2SF (fst b))) as [L|[L|L]];
  destruct (sf_total (Prim2SF (fst b)) (Prim2SF (fst c))) as [M|[M|M]];
  destruct (Z_lt_le_dec (snd a) (snd b)) as [Z|Z];
  unfold sf_lt, sf_eq in *; intuition lia.
Qed.

(** ** The stable sort and [max] *)

Section SortFacts.
Context {A K : Type}.
Variable ltb : K -> K -> bool.
Variable key : A -> K.
Variable ok : K -> Prop.
Hypothesis ltb_asym : forall a b, ltb a b = true -> ltb b a = false.
Hypothesis ltb_cotrans :
  forall a b c, ok b -> ltb a c = true -> ltb a b = true \/ ltb b c = true.

Lemma key_le_trans (a b c : A) :
  ok (key b) ->
  key_le ltb key a b -> key_le ltb key b c -> key_le ltb key a c.
Proof using ltb_cotrans.
  unfold key_le. intros Hb H1 H2.
  destruct (ltb (key c) (key a)) eqn:E; [|reflexivity].
  destruct (ltb_cotrans _ (key b) _ Hb E); congruence.
Qed.

Lemma sort_by_cons (x : A) (l : list A) :
  sort_by ltb key (x :: l) = insert_by ltb key x (sort_by ltb key l).
Proof. reflexivity. Qed.

Lemma insert_by_perm (x : A) (l : list A) :
  Permutation (insert_by ltb key x l) (x :: l).
Proof.
  induction l as [|y l IH]; simpl; [reflexivity|].
  destruct (ltb (key y) (key x)); [|reflexivity].
  rewrite IH. apply perm_swap.
Qed.

Lemma sort_by_perm (l : list A) : Permutation (sort_by ltb key l) l.
Proof.
  induction l as [|x l IH]; simpl; [reflexivity|].
  rewrite insert_by_perm. now constructor.
Qed.

Lemma sort_by_length (l : list A) :
  List.length (sort_by ltb key l) = List.length l.
Proof. apply Permutation_length, sort_by_perm. Qed.

(** Whatever the keys are, no element of the sorted list has a smaller
    key than the element before it. *)
Lemma insert_by_ascending (x : A) (l : list A) :
  Sorted (key_le ltb key) l ->
  Sorted (key_le ltb key) (insert_by ltb key x l).
Proof using ltb_asym.
  induction 1 as [|y l S IH F]; cbn [insert_by].
  - repeat constructor.
  - destruct (ltb (key y) (key x)) eqn:E.
    + constructor; [exact IH|].
      destruct l as [|z l]; cbn [insert_by].
      * constructor. unfold key_le. now apply ltb_asym.
      * destruct (ltb (key z) (key x)).
        -- constructor. now inversion F.
        -- constructor. unfold key_le. now apply ltb_asym.
    + constructor; [now constructor|]. now constructor.
Qed.

Lemma sort_by_ascending (l : list A) :
  Sorted (key_le ltb key) (sort_by ltb key l).
Proof using ltb_asym.
  induction l as [|x l IH]; [constructor|].
  rewrite sort_by_cons. now apply insert_by_ascending.
Qed.

(** Such a list is left as it is. *)
Lemma sort_by_ascending_same (l : list A) :
  Sorted (key_le ltb key) l -> sort_by ltb key l = l.
Proof.
  induction 1 as [|x l S IH F]; [reflexivity|].
  rewrite sort_by_cons, IH. destruct l as [|y l]; [reflexivity|].
  cbn [insert_by]. inversion F as [|? ? Hy]; subst.
  unfold key_le in Hy. now rewrite Hy.
Qed.

Lemma insert_by_sorted (x : A) (l : list A) :
  Forall (fun y => ok (key y)) l ->
  StronglySorted (key_le ltb key) l ->
  StronglySorted (key_le ltb key) (insert_by ltb key x l).
Proof using ltb_asym ltb_cotrans.
  intros Hok S. induction S as [|y l S IH F]; simpl.
  - constructor; constructor.
  - inversion Hok as [|? ? Hy Hl]; subst.
    destruct (ltb (key y) (key x)) eqn:E.
    + constructor; [now apply IH|].
      rewrite Forall_forall in *. intros z Hz.
      apply (Permutation_in _ (insert_by_perm x l)) in Hz.
      destruct Hz as [<-|Hz]; [|now apply F].
      unfold key_le. now apply ltb_asym.
    + constructor; [now constructor|].
      constructor; [exact E|].
      rewrite Forall_forall in *. intros z Hz.
      apply key_le_trans with y; [exact Hy|exact E|now apply F].
Qed.

Lemma sort_by_sorted (l : list A) :
  Forall (fun y => ok (key y)) l ->
  StronglySorted (key_le ltb key) (sort_by ltb key l).
Proof using ltb_asym ltb_cotrans.
  induction 1 as [|x l Hx Hl IH]; simpl; [constructor|].
  apply insert_by_sorted; [|exact IH].
  rewrite Forall_forall in *. intros y Hy. apply Hl.
  exact (Permutation_in _ (sort_by_perm l) Hy).
Qed.

Lemma same_key_smaller (p x y : A) :
  ok (key p) ->
  same_key ltb key p x = true -> ltb (key y) (key x) = true ->
  same_key ltb key p y = false.
Proof using ltb_cotrans.
  unfold same_key. rewrite andb_true_iff, !negb_true_iff.
  intros Hp [H1 H2] H.
  destruct (ltb_cotrans _ (key p) _ Hp H) as [L|L]; [|congruence].
  rewrite L. simpl. apply andb_false_r.
Qed.

Lemma insert_by_filter (p x : A) (l : list A) :
  ok (key p) ->
  filter (same_key ltb key p) (insert_by ltb key x l) =
  filter (same_key ltb key p) (x :: l).
Proof using ltb_cotrans.
  intro Hp. induction l as [|y l IH]; [reflexivity|].
  cbn [insert_by]. destruct (ltb (key y) (key x)) eqn:E; [|reflexivity].
  cbn [filter] in *. rewrite IH.
  destruct (same_key ltb key p x) eqn:Sx; [|reflexivity].
  now rewrite (same_key_smaller p x y Hp Sx E).
Qed.

(** Stability: the players of one key class keep their order. *)
Lemma sort_by_stable (p : A) (l : list A) :
  ok (key p) ->
  filter (same_key ltb key p) (sort_by ltb key l) =
  filter (same_key ltb key p) l.
Proof using ltb_cotrans.
  intro Hp. induction l as [|x l IH]; [reflexivity|].
  rewrite sort_by_cons, insert_by_filter by exact Hp.
  cbn [filter]. now rewrite IH.
Qed.

(** The sorted list has a head, an element of the list, whatever the
    keys are. *)
Lemma sort_by_hd (l : list A) :
  l <> [] -> exists r, hd_error (sort_by ltb key l) = Some r /\ In r l.
Proof.
  intro Hne. destruct (sort_by ltb key l) as [|r tl] eqn:E.
  - apply (f_equal (@List.length A)) in E. rewrite sort_by_length in E.
    destruct l; [congruence|discriminate].
  - exists r. split; [reflexivity|].
    apply (Permutation_in _ (sort_by_perm l)). rewrite E. now left.
Qed.


Lemma max_from_spec (l : list A) (cur : A) :
  Forall (fun y => ok (key y)) (cur :: l) ->
  In (max_from ltb key cur l) (cur :: l) /\
  forall p, In p (cur :: l) ->
    ltb (key (max_from ltb key cur l)) (key p) = false.
Proof using ltb_asym ltb_cotrans.
  revert cur. induction l as [|x l IH]; intros cur Hok; cbn [max_from].
  - split; [now left|]. intros p [<-|[]].
    destruct (ltb (key cur) (key cur)) eqn:E; [|reflexivity].
    now rewrite (ltb_asym _ _ E) in E.
  - inversion Hok as [|? ? Hc Hl]; subst.
    inversion Hl as [|? ? Hx Hl']; subst.
    destruct (IH (if ltb (key cur) (key x) then x else cur)) as [Hin Hmax].
    { constructor; [|exact Hl']. now destruct (ltb (key cur) (key x)). }
    set (m := max_from ltb key _ l) in *.
    split.
    + destruct Hin as [Hin|Hin]; [|now right; right].
      destruct (ltb (key cur) (key x)); rewrite <- Hin; simpl; auto.
    + intros p Hp.
      destruct (ltb (key m) (key p)) eqn:F; [|reflexivity]. exfalso.
      destruct Hp as [<-|[<-|Hp]].
      * destruct (ltb (key cur) (key x)) eqn:E.
        -- destruct (ltb_cotrans _ (key x) _ Hx F) as [G|G].
           ++ rewrite Hmax in G; [discriminate|now left].
           ++ apply ltb_asym in G. congruence.
        -- rewrite Hmax in F; [discriminate|now left].
      * destruct (ltb (key cur) (key x)) eqn:E.
        -- rewrite Hmax in F; [discriminate|now left].
        -- destruct (ltb_cotrans _ (key cur) _ Hc F) as [G|G]; [|congruence].
           rewrite Hmax in G; [discriminate|now left].
      * rewrite Hmax in F; [discriminate|now right].
Qed.
End SortFacts.

Lemma Forall_any_key {A K : Type} (key : A -> K) (l : list A) :
  Forall (fun y => any_key (key y)) l.
Proof. apply Forall_forall. intros y _. exact I. Qed.

(** ** The store of Player objects *)

Lemma mark_bye_length (r : ref) (st : list Player) :
  List.length (mark_bye r st) = List.length st.
Proof.
  revert r. induction st as [|p st IH]; intros [|r]; simpl; auto.
Qed.

Lemma deref_mark_bye (r : ref) (st : list Player) (x : ref) :
  deref (mark_bye r st) x =
  if ((x =? r) && (x <? List.length st))%nat
  then set_has_bye true (deref st x) else deref st x.
Proof.
  unfold deref. revert r x.
  induction st as [|p st IH]; intros r x.
  - simpl. rewrite andb_false_r. now destruct r.
  - destruct r as [|r], x as [|x]; simpl; try reflexivity.
    rewrite IH. reflexivity.
Qed.

Lemma agree_refl (st : list Player) : agree st st.
Proof. split; auto. Qed.

Lemma agree_trans (a b c : list Player) : agree a b -> agree b c -> agree a c.
Proof.
  intros [L1 H1] [L2 H2]. split; [congruence|].
  intro x. now rewrite H2, H1.
Qed.

Lemma agree_mark_bye (r : ref) (st : list Player) : agree st (mark_bye r st).
Proof.
  split; [apply mark_bye_length|].
  intro x. rewrite deref_mark_bye.
  now destruct ((x =? r) && (x <? List.length st))%nat.
Qed.

Section Agree.
Variables st st' : list Player.
Hypothesis same : agree st st'.

Lemma agree_field {B : Type} (f : Player -> B) (x : ref) :
  (forall p, f (set_has_bye false p) = f p) ->
  f (deref st' x) = f (deref st x).
Proof using same.
  intro Hf. rewrite <- (Hf (deref st' x)), <- (Hf (deref st x)).
  f_equal. apply same.
Qed.

Lemma agree_id (x : ref) : id (deref st' x) = id (deref st x).
Proof using same. now apply agree_field. Qed.

Lemma agree_rank (x : ref) : rank_of st' x = rank_of st x.
Proof using same. unfold rank_of. now apply agree_field. Qed.

Lemma agree_ranked : ranked st -> ranked st'.
Proof using same.
  intros R r Hr. rewrite agree_rank. apply R.
  destruct same as [L _]. now rewrite <- L.
Qed.

Lemma agree_in_store (l : list ref) : in_store st l -> in_store st' l.
Proof using same.
  unfold in_store. destruct same as [L _]. now rewrite L.
Qed.
End Agree.

Lemma Player_eqb_rank (p q : Player) :
  Player_eqb p q = true -> rank p = rank q.
Proof.
  unfold Player_eqb. rewrite !andb_true_iff.
  intros [[[[_ H] _] _] _]. now apply Z.eqb_eq.
Qed.

(** Under [ranked], [__eq__] tells the objects of a store apart. *)
Lemma ranked_distinct (st : list Player) (e x : ref) :
  ranked st -> (e < List.length st)%nat -> (x < List.length st)%nat ->
  Player_eqb (deref st e) (deref st x) = true -> e = x.
Proof.
  intros R He Hx H. apply Player_eqb_rank in H.
  pose proof (R e He) as Re. pose proof (R x Hx) as Rx.
  unfold rank_of in *. lia.
Qed.

(** ** Lists of references *)

Lemma filter_all {A : Type} (f : A -> bool) (l : list A) :
  (forall a, In a l -> f a = true) -> filter f l = l.
Proof.
  induction l as [|a l IH]; intro H; simpl; [reflexivity|].
  rewrite (H a (or_introl eq_refl)). f_equal. apply IH.
  intros b Hb. apply H. now right.
Qed.

Lemma in_store_filter (st : list Player) (f : ref -> bool) (l : list ref) :
  in_store st l -> in_store st (filter f l).
Proof.
  unfold in_store. rewrite !Forall_forall. intros H e He.
  apply filter_In in He. now apply H.
Qed.

Lemma outside_cons (x : ref) (l : list ref) (pool : list ref) :
  filter (outside l) (filter (differs x) pool) = filter (outside (x :: l)) pool.
Proof.
  induction pool as [|e pool IH]; [reflexivity|].
  unfold outside, differs in *. cbn [filter existsb].
  destruct (e =? x)%nat; cbn [negb orb filter]; rewrite IH; reflexivity.
Qed.

Lemma outside_nil (pool : list ref) : filter (outside []) pool = pool.
Proof. now apply filter_all. Qed.

(** On a pool without repetition, [remove] takes out exactly the object
    asked for and keeps the order of the others. *)
Lemma list_remove_filter (st : list Player) (x : ref) (l : list ref) :
  ranked st -> (x < List.length st)%nat -> in_store st l -> NoDup l ->
  In x l ->
  list_remove st x l = Ok (filter (differs x) l).
Proof.
  intros R Hx B N. induction l as [|e l IH]; intro Hin; [destruct Hin|].
  inversion B as [|? ? He Bl]; subst. inversion N as [|? ? Hne Nl]; subst.
  cbn [list_remove filter]. unfold differs at 1.
  destruct (e =? x)%nat eqn:E.
  - apply Nat.eqb_eq in E. subst e. cbn [orb negb].
    f_equal. symmetry. apply filter_all.
    intros a Ha. unfold differs. apply negb_true_iff, Nat.eqb_neq.
    intros ->. contradiction.
  - cbn [orb negb].
    destruct (Player_eqb (deref st e) (deref st x)) eqn:Q.
    + apply ranked_distinct in Q; auto. subst. now rewrite Nat.eqb_refl in E.
    + destruct Hin as [->|Hin]; [now rewrite Nat.eqb_refl in E|].
      rewrite (IH Bl Nl Hin). reflexivity.
Qed.

Lemma length_filter_differs (x : ref) (l : list ref) :
  NoDup l -> In x l ->
  S (List.length (filter (differs x) l)) = List.length l.
Proof.
  induction 1 as [|e l Hne N IH]; intro Hin; [destruct Hin|].
  cbn [filter]. unfold differs at 1.
  destruct (e =? x)%nat eqn:E; cbn [negb length].
  - apply Nat.eqb_eq in E. subst. f_equal. f_equal. apply filter_all.
    intros a Ha. apply negb_true_iff, Nat.eqb_neq. intros ->. contradiction.
  - f_equal. apply IH. destruct Hin as [->|Hin]; [|exact Hin].
    now rewrite Nat.eqb_refl in E.
Qed.

Lemma perm_filter_differs (x : ref) (l : list ref) :
  NoDup l -> In x l -> Permutation (x :: filter (differs x) l) l.
Proof.
  induction 1 as [|e l Hne N IH]; intro Hin; [destruct Hin|].
  cbn [filter]. unfold differs at 1.
  destruct (e =? x)%nat eqn:E; cbn [negb].
  - apply Nat.eqb_eq in E. subst. constructor.
    rewrite filter_all; [reflexivity|].
    intros a Ha. apply negb_true_iff, Nat.eqb_neq. intros ->. contradiction.
  - destruct Hin as [->|Hin]; [now rewrite Nat.eqb_refl in E|].
    rewrite perm_swap. constructor. now apply IH.
Qed.

(** ** Late-joiner byes *)

Lemma deref_refs (st : list Player) : map (deref st) (refs st) = st.
Proof.
  unfold refs, deref. apply nth_ext with (d := no_player) (d' := no_player).
  - now rewrite length_map, length_seq.
  - intros n Hn. rewrite length_map, length_seq in Hn.
    rewrite (nth_indep _ _ (nth 0 st no_player)) by
      now rewrite length_map, length_seq.
    rewrite map_nth with (d := 0%nat). now rewrite seq_nth.
Qed.

Lemma late_joiners_of_refs (st : list Player) :
  late_joiners_of st (refs st) = late_joiners st.
Proof.
  unfold late_joiners_of. now rewrite deref_refs.
Qed.

Lemma inv_start (st : list Player) : ranked st -> inv (start st).
Proof.
  intro R. split; simpl; [exact R| |apply seq_NoDup].
  unfold in_store. apply Forall_forall. intros e He.
  apply in_seq in He. lia.
Qed.

Lemma has_bye_mark_bye (r : ref) (st : list Player) (x : ref) :
  (r < List.length st)%nat ->
  has_bye (deref (mark_bye r st) x) = has_bye (deref st x) || (x =? r)%nat.
Proof.
  intro Hr. rewrite deref_mark_bye.
  destruct (x =? r)%nat eqn:E; cbn [andb].
  - apply Nat.eqb_eq in E. subst.
    apply Nat.ltb_lt in Hr. rewrite Hr. simpl. now rewrite orb_true_r.
  - now rewrite orb_false_r.
Qed.

Lemma inv_remove (s : engine) (r : ref) (ps : list Pairing) :
  inv s ->
  inv {| store := mark_bye r (store s);
         available_players := filter (differs r) (available_players s);
         pairings := ps |}.
Proof.
  intros [R B N]. split; cbn [store available_players].
  - exact (agree_ranked _ _ (agree_mark_bye r (store s)) R).
  - apply (agree_in_store _ _ (agree_mark_bye r (store s))).
    now apply in_store_filter.
  - now apply NoDup_filter.
Qed.

Lemma in_store_In (st : list Player) (l : list ref) (r : ref) :
  in_store st l -> In r l -> (r < List.length st)%nat.
Proof.
  unfold in_store. rewrite Forall_forall. auto.
Qed.

Lemma late_joiner_loop_spec (ljs : list ref) (s : engine) :
  inv s -> NoDup ljs -> incl ljs (available_players s) ->
  exists st',
    late_joiner_loop ljs s =
      Ok {| store := st';
            available_players := filter (outside ljs) (available_players s);
            pairings := pairings s ++ map (bye_of (store s)) ljs |} /\
    agree (store s) st' /\
    forall x, has_bye (deref st' x) =
              has_bye (deref (store s) x) || existsb (Nat.eqb x) ljs.
Proof.
  revert s. induction ljs as [|lj ljs IH]; intros s I N Hin.
  - exists (store s). cbn [late_joiner_loop map existsb].
    rewrite outside_nil, app_nil_r.
    split; [now destruct s|]. split; [apply agree_refl|].
    intro x. now rewrite orb_false_r.
  - inversion N as [|? ? Hlj N']; subst.
    assert (In lj (available_players s)) as Hav by (apply Hin; now left).
    pose proof I as [R B D].
    pose proof (in_store_In _ _ _ B Hav) as Hlt.
    cbn [late_joiner_loop].
    rewrite (list_remove_filter _ _ _ R Hlt B D Hav). cbn [bind].
    set (s1 := {| store := mark_bye lj (store s) |}).
    destruct (IH s1) as (st' & Heq & Hag & Hbye).
    + apply inv_remove. exact I.
    + exact N'.
    + intros e He. cbn [s1 available_players]. apply filter_In. split.
      * apply Hin. now right.
      * unfold differs. apply negb_true_iff, Nat.eqb_neq.
        intros ->. contradiction.
    + exists st'. rewrite Heq. cbn [s1 store available_players pairings].
      pose proof (agree_mark_bye lj (store s)) as Hm.
      split; [|split].
      * f_equal. f_equal; [apply outside_cons|].
        rewrite <- app_assoc. f_equal. cbn [app map]. unfold bye_of.
        f_equal; [now rewrite (agree_id _ _ Hm)|].
        apply map_ext. intro r. now rewrite (agree_id _ _ Hm).
      * eapply agree_trans; [exact Hm|exact Hag].
      * intro x. rewrite Hbye. cbn [s1 store existsb].
        rewrite has_bye_mark_bye by exact Hlt. now rewrite orb_assoc.
Qed.

(** ** The odd-pool bye *)

Lemma select_bye_player_spec (st : list Player) (pool : list ref) :
  pool <> [] ->
  exists r, select_bye_player st pool = Ok r /\ bye_choice st pool r.
Proof.
  intro Hne. unfold select_bye_player.
  fold (never_byed st).
  destruct (filter (never_byed st) pool) as [|x l] eqn:F.
  - destruct pool as [|y pool]; [congruence|].
    destruct (max_from_spec Z.ltb (rank_of st) any_key Zltb_asym Zltb_cotrans
                pool y (Forall_any_key _ _)) as [Hin Hmax].
    exists (max_from Z.ltb (rank_of st) y pool).
    split; [reflexivity|]. split; [exact Hin|]. split.
    + intros r' Hr' Hn.
      assert (In r' (filter (never_byed st) (y :: pool))) as Hf
        by now apply filter_In.
      rewrite F in Hf. destruct Hf.
    + intros _ r' Hr'. apply Hmax in Hr'. now apply Z.ltb_ge in Hr'.
  - destruct (max_from_spec Z.ltb (rank_of st) any_key Zltb_asym Zltb_cotrans
                l x (Forall_any_key _ _)) as [Hin Hmax].
    exists (max_from Z.ltb (rank_of st) x l).
    rewrite <- F in Hin, Hmax.
    apply filter_In in Hin. destruct Hin as [Hin Hn].
    split; [reflexivity|]. split; [exact Hin|]. split.
    + intros r' Hr' Hn'. split; [exact Hn|].
      apply Z.ltb_ge, Hmax, filter_In. now split.
    + intros Hall. rewrite (Hall _ Hin) in Hn. discriminate.
Qed.

Lemma odd_length (n : nat) : (n mod 2 =? 1)%nat = negb (Nat.even n).
Proof.
  rewrite <- Nat.bit0_mod, Nat.bit0_odd, <- Nat.negb_even.
  now destruct (Nat.even n).
Qed.

Lemma odd_pool_bye_odd (s : engine) :
  inv s -> Nat.even (List.length (available_players s)) = false ->
  exists r,
    select_bye_player (store s) (available_players s) = Ok r /\
    bye_choice (store s) (available_players s) r /\
    odd_pool_bye s =
      Ok {| store := mark_bye r (store s);
            available_players := filter (differs r) (available_players s);
            pairings := pairings s ++ [bye_of (store s) r] |}.
Proof.
  intros I Hodd. pose proof I as [R B N].
  destruct (select_bye_player_spec (store s) (available_players s))
    as (r & Hsel & Hch).
  { intro E. rewrite E in Hodd. discriminate. }
  exists r. split; [exact Hsel|]. split; [exact Hch|].
  unfold odd_pool_bye. rewrite odd_length, Hodd. cbn [negb].
  rewrite Hsel. cbn [bind]. destruct Hch as [Hin _].
  rewrite (list_remove_filter _ _ _ R (in_store_In _ _ _ B Hin) B N Hin).
  cbn [bind]. unfold bye_of.
  now rewrite (agree_id _ _ (agree_mark_bye r (store s))).
Qed.

Lemma odd_pool_bye_even (s : engine) :
  Nat.even (List.length (available_players s)) = true ->
  odd_pool_bye s = Ok s.
Proof.
  intro E. unfold odd_pool_bye. now rewrite odd_length, E.
Qed.

(** ** Matching *)




(** [find_best_opponent] finds an opponent among the candidates when
    there is one, whatever the scores are. *)
Lemma find_best_opponent_some (st : list Player) (player : ref)
    (candidates : list ref) :
  candidates <> [] ->
  exists r pool,
    find_best_opponent st player candidates = (Some r, pool) /\
    In r candidates /\
    Permutation pool candidates.
Proof.
  intro Hne. unfold find_best_opponent. fold (fresh st player).
  destruct (filter (fresh st player) candidates) as [|v vs] eqn:F.
  - destruct candidates as [|c cs] eqn:C; [congruence|]. rewrite <- C in *.
    destruct (sort_by_hd PrimFloat.ltb (score_gap st player) candidates Hne)
      as (r & Hh & Hin).
    exists r, (sort_by PrimFloat.ltb (score_gap st player) candidates).
    split; [now rewrite Hh|]. split; [exact Hin|apply sort_by_perm].
  - rewrite <- F.
    destruct (sort_by_hd PrimFloat.ltb (score_gap st player)
                (filter (fresh st player) candidates))
      as (r & Hh & Hin); [now rewrite F|].
    exists r, candidates. split; [now rewrite Hh|]. split; [|reflexivity].
    now apply filter_In in Hin.
Qed.


Lemma assign_colors_cases (a b : Player) :
  assign_colors a b = (a, b) \/ assign_colors a b = (b, a).
Proof.
  unfold assign_colors.
  destruct (color_balance a >? color_balance b)%Z; [now right|].
  destruct (color_balance b >? color_balance a)%Z; [now left|].
  destruct (rating a >=? rating b)%Z; auto.
Qed.

(** One turn of the matching loop pairs the anchor with the opponent
    found and takes both out of the pool. *)
Lemma matching_step_spec (s : engine) (player1 : ref) (rest : list ref) :
  ranked (store s) -> in_store (store s) rest -> NoDup rest -> rest <> [] ->
  exists player2 pool w b,
    find_best_opponent (store s) player1 rest = (Some player2, pool) /\
    In player2 rest /\
    Permutation pool rest /\
    Permutation [w; b] [player1; player2] /\
    assign_colors (deref (store s) player1) (deref (store s) player2) =
      (deref (store s) w, deref (store s) b) /\
    matching_step s player1 rest =
      Ok {| store := store s;
            available_players := filter (differs player2) pool;
            pairings := pairings s ++ [slot_pairing (store s) (Game w b)] |}.
Proof.
  intros R B N Hne.
  destruct (find_best_opponent_some (store s) player1 rest Hne)
    as (r & pool & Hf & Hin & Hperm).
  assert (In r pool) as Hin' by
    (eapply Permutation_in; [symmetry; exact Hperm|exact Hin]).
  assert (NoDup pool) as N' by
    (eapply Permutation_NoDup; [symmetry; exact Hperm|exact N]).
  assert (in_store (store s) pool) as B' by
    (unfold in_store in *; now rewrite Hperm).
  assert (exists w b,
            Permutation [w; b] [player1; r] /\
            assign_colors (deref (store s) player1) (deref (store s) r) =
              (deref (store s) w, deref (store s) b)) as (w & b & Hwb & Hc).
  { destruct (assign_colors_cases (deref (store s) player1)
                                  (deref (store s) r)) as [E|E].
    - exists player1, r. now split.
    - exists r, player1. split; [apply perm_swap|exact E]. }
  exists r, pool, w, b.
  split; [exact Hf|]. split; [exact Hin|]. split; [exact Hperm|].
  split; [exact Hwb|]. split; [exact Hc|].
  unfold matching_step. rewrite Hf.
  rewrite (list_remove_filter _ _ _ R (in_store_In _ _ _ B' Hin') B' N' Hin').
  cbn [bind]. now rewrite Hc.
Qed.

Lemma engine_eta (s : engine) :
  s = {| store := store s;
         available_players := available_players s;
         pairings := pairings s |}.
Proof. now destruct s. Qed.

(** The matching loop ends with an empty pool when it starts with an
    even one, having paired every player of the pool once. *)
Lemma matching_loop_spec (fuel : nat) (s : engine) :
  inv s ->
  Nat.even (List.length (available_players s)) = true ->
  (List.length (available_players s) <= fuel)%nat ->
  exists plan,
    matching_loop fuel s =
      Some (Ok {| store := store s;
                  available_players := [];
                  pairings := pairings s ++ map (slot_pairing (store s)) plan
               |}) /\
    Permutation (flat_map slot_refs plan) (available_players s) /\
    Forall is_game plan.
Proof.
  revert s. induction fuel as [|fuel IH]; intros s I Hev Hlen.
  - destruct (available_players s) as [|a l] eqn:E; [|simpl in Hlen; lia].
    exists []. cbn [matching_loop map flat_map]. rewrite E, app_nil_r.
    split; [|split; constructor].
    rewrite (engine_eta s) at 1. now rewrite E.
  - destruct (available_players s) as [|a [|c cs]] eqn:E.
    + exists []. cbn [matching_loop map flat_map]. rewrite E, app_nil_r.
      split; [|split; constructor].
      rewrite (engine_eta s) at 1. now rewrite E.
    + discriminate.
    + destruct I as [R B N]. rewrite E in B, N.
      inversion B as [|? ? Ba Br]; subst. inversion N as [|? ? Na Nr]; subst.
      destruct (matching_step_spec s a (c :: cs) R Br Nr)
        as (r & pool & w & b & Hf & Hin & Hperm & Hwb & Hc & Hstep);
        [congruence|].
      assert (In r pool) as Hin' by
        (eapply Permutation_in; [symmetry; exact Hperm|exact Hin]).
      assert (NoDup pool) as N' by
        (eapply Permutation_NoDup; [symmetry; exact Hperm|exact Nr]).
      pose proof (length_filter_differs r pool N' Hin') as Hl.
      rewrite (Permutation_length Hperm) in Hl.
      set (s' := {| store := store s;
                    available_players := filter (differs r) pool |}) in Hstep.
      destruct (IH s') as (plan & Hloop & Hp & Hg).
      * split; cbn [s' store available_players].
        -- exact R.
        -- apply in_store_filter. unfold in_store in *. now rewrite Hperm.
        -- now apply NoDup_filter.
      * cbn [s' available_players]. cbn [length] in Hev, Hl.
        injection Hl as Hl. rewrite <- Hl in Hev. exact Hev.
      * cbn [s' available_players]. cbn [length] in Hlen, Hl. lia.
      * exists (Game w b :: plan).
        cbn [matching_loop]. rewrite E, Hstep, Hloop.
        cbn [s' store pairings available_players map flat_map slot_refs].
        split; [now rewrite <- app_assoc|]. split; [|now constructor].
        cbn [s' available_players] in Hp. rewrite Hp.
        transitivity ([a; r] ++ filter (differs r) pool).
        -- now apply Permutation_app_tail.
        -- cbn [app]. constructor.
           rewrite (perm_filter_differs r pool N' Hin'). exact Hperm.
Qed.

(** ** The whole run *)

Lemma slot_pairing_agree (st st' : list Player) (x : slot) :
  agree st st' -> slot_pairing st' x = slot_pairing st x.
Proof.
  intro H. destruct x as [r|w b]; cbn [slot_pairing];
    now rewrite !(agree_id _ _ H).
Qed.

Lemma outside_late_joiners (st : list Player) :
  filter (outside (late_joiners st)) (refs st) = pool_of st.
Proof.
  unfold pool_of. apply filter_ext_in. intros e He.
  unfold outside, on_time. f_equal.
  destruct (late st e) eqn:L.
  - apply existsb_exists. exists e. split; [|apply Nat.eqb_refl].
    apply filter_In. now split.
  - destruct (existsb (Nat.eqb e) (late_joiners st)) eqn:X; [|reflexivity].
    apply existsb_exists in X. destruct X as (y & Hy & Hey).
    apply Nat.eqb_eq in Hey. subst y.
    apply filter_In in Hy. destruct Hy as [_ Hy]. congruence.
Qed.

Lemma pool_not_late (st : list Player) (x : ref) :
  In x (pool_of st) -> existsb (Nat.eqb x) (late_joiners st) = false.
Proof.
  intro H. apply filter_In in H. destruct H as [_ H].
  destruct (existsb (Nat.eqb x) (late_joiners st)) eqn:X; [|reflexivity].
  apply existsb_exists in X. destruct X as (y & Hy & Hxy).
  apply Nat.eqb_eq in Hxy. subst y.
  apply filter_In in Hy. destruct Hy as [_ Hy].
  unfold on_time in H. rewrite Hy in H. discriminate.
Qed.

Lemma pool_split (st : list Player) :
  Permutation (late_joiners st ++ pool_of st) (refs st).
Proof.
  unfold late_joiners, pool_of, on_time.
  induction (refs st) as [|e l IH]; [reflexivity|].
  cbn [filter]. destruct (late st e); cbn [negb app].
  - now constructor.
  - rewrite <- Permutation_middle. now constructor.
Qed.

Lemma bye_choice_agree (st st1 : list Player) (pool : list ref) (r : ref) :
  agree st st1 ->
  (forall x, In x pool -> has_bye (deref st1 x) = has_bye (deref st x)) ->
  bye_choice st1 pool r -> bye_choice st pool r.
Proof.
  intros Hag Hb (Hin & Hsome & Hall).
  assert (forall x, In x pool -> never_byed st1 x = never_byed st x) as Hn.
  { intros x Hx. unfold never_byed. now rewrite Hb. }
  split; [exact Hin|]. split.
  - intros r' Hr' Hnb. rewrite <- (Hn _ Hr') in Hnb.
    destruct (Hsome r' Hr' Hnb) as [H1 H2].
    rewrite (Hn _ Hin) in H1. rewrite !(agree_rank _ _ Hag) in H2. auto.
  - intros H r' Hr'. rewrite <- !(agree_rank _ _ Hag). apply Hall; [|exact Hr'].
    intros x Hx. rewrite (Hn _ Hx). now apply H.
Qed.

Lemma existsb_app_single (x r : ref) (l : list ref) :
  existsb (Nat.eqb x) (l ++ [r]) = existsb (Nat.eqb x) l || (x =? r)%nat.
Proof.
  rewrite existsb_app. cbn [existsb]. now rewrite orb_false_r.
Qed.

(** On a ranked snapshot [compute_pairings] returns, and the run has the
    shape [run] describes. *)
Lemma compute_pairings_run (st : list Player) :
  ranked st -> exists odd plan out st', run st odd plan out st'.
Proof.
  intro R.
  assert (NoDup (late_joiners st)) as Nl by apply NoDup_filter, seq_NoDup.
  assert (incl (late_joiners st) (available_players (start st))) as Il.
  { intros e He. apply filter_In in He. apply He. }
  destruct (late_joiner_loop_spec (late_joiners st) (start st)
              (inv_start st R) Nl Il) as (st1 & Hlate & Hag1 & Hbye1).
  cbn [start store available_players pairings app] in Hlate, Hag1, Hbye1.
  fold (refs st) in Hlate. rewrite outside_late_joiners in Hlate.
  set (s1 := {| store := st1; available_players := pool_of st;
                pairings := map (bye_of st) (late_joiners st) |}) in *.
  assert (inv s1) as I1.
  { split; cbn [s1 store available_players].
    - exact (agree_ranked _ _ Hag1 R).
    - apply (agree_in_store _ _ Hag1), in_store_filter.
      apply (inv_in_store _ (inv_start st R)).
    - apply NoDup_filter, seq_NoDup. }
  assert (List.length (pool_of st) <= List.length st)%nat as Hle.
  { unfold pool_of. rewrite filter_length_le. unfold refs.
    now rewrite length_seq. }
  assert (forall x, In x (pool_of st) ->
                    has_bye (deref st1 x) = has_bye (deref st x)) as Hflags.
  { intros x Hx. rewrite Hbye1, (pool_not_late _ _ Hx).
    apply orb_false_r. }
  destruct (Nat.even (List.length (pool_of st))) eqn:Ev.
  - (* even pool: no further bye *)
    destruct (matching_loop_spec (List.length st) s1 I1 Ev Hle)
      as (plan & Hloop & Hperm & Hg).
    cbn [s1 store available_players pairings] in Hloop, Hperm.
    exists [], plan,
      (map (bye_of st) (late_joiners st) ++ map (bye_of st) []
       ++ map (slot_pairing st) plan), st1.
    split.
    + exists st1. rewrite late_joiners_of_refs.
      split; [exact Hlate|]. split; [exact Hflags|discriminate].
    + now rewrite Ev.
    + reflexivity.
    + unfold compute_pairings. cbn [start available_players].
      fold (refs st). rewrite late_joiners_of_refs, Hlate. cbn [bind].
      rewrite (odd_pool_bye_even s1 Ev), Hloop. cbn [pairings store map app].
      rewrite (map_ext (slot_pairing st1) (slot_pairing st))
        by (intro; now apply slot_pairing_agree).
      reflexivity.
    + cbn [app]. rewrite Hperm. apply pool_split.
    + exact Hg.
    + exact Hag1.
    + intro x. now rewrite app_nil_r.
  - (* odd pool: one more bye *)
    destruct (odd_pool_bye_odd s1 I1 Ev) as (r & Hsel & Hch & Hodd).
    cbn [s1 store available_players pairings] in Hsel, Hch, Hodd.
    pose proof Hch as [Hin _].
    set (s2 := {| store := mark_bye r st1 |}) in Hodd.
    assert (inv s2) as I2 by (apply (inv_remove s1 r), I1).
    pose proof (length_filter_differs r (pool_of st)
                  (inv_NoDup _ I1) Hin) as Hl.
    assert (Nat.even (List.length (available_players s2)) = true) as Ev2.
    { cbn [s2 available_players]. rewrite <- Hl in Ev.
      rewrite Nat.even_succ, <- Nat.negb_even in Ev.
      now apply negb_false_iff in Ev. }
    assert (List.length (available_players s2) <= List.length st)%nat as Hle2.
    { cbn [s2 available_players]. lia. }
    destruct (matching_loop_spec (List.length st) s2 I2 Ev2 Hle2)
      as (plan & Hloop & Hperm & Hg).
    cbn [s2 store available_players pairings] in Hloop, Hperm.
    pose proof (agree_trans _ _ _ Hag1 (agree_mark_bye r st1)) as Hag2.
    exists [r], plan,
      (map (bye_of st) (late_joiners st) ++ map (bye_of st) [r]
       ++ map (slot_pairing st) plan), (mark_bye r st1).
    split.
    + exists st1. rewrite late_joiners_of_refs.
      split; [exact Hlate|]. split; [exact Hflags|].
      now intros r' [= <-].
    + rewrite Ev. exists r. split; [reflexivity|].
      now apply (bye_choice_agree st st1).
    + reflexivity.
    + unfold compute_pairings. cbn [start available_players].
      fold (refs st). rewrite late_joiners_of_refs, Hlate. cbn [bind].
      rewrite Hodd, Hloop. cbn [pairings store map].
      rewrite (map_ext (slot_pairing (mark_bye r st1)) (slot_pairing st))
        by (intro; now apply slot_pairing_agree).
      rewrite <- app_assoc. unfold bye_of at 2.
      now rewrite (agree_id _ _ Hag1).
    + cbn [app]. rewrite Hperm.
      pose proof (perm_filter_differs r _ (inv_NoDup _ I1) Hin) as Hp.
      cbn [s1 available_players] in Hp. rewrite Hp. apply pool_split.
    + exact Hg.
    + exact Hag2.
    + intro x. rewrite existsb_app_single, orb_assoc, <- Hbye1.
      apply has_bye_mark_bye.
      destruct Hag1 as [L _]. rewrite L.
      apply (in_store_In st (pool_of st)); [|exact Hin].
      apply in_store_filter, (inv_in_store _ (inv_start st R)).
Qed.

(** ** Ranking *)

Lemma rank_key_ok (p : Player) :
  is_nan (score p) = false -> key_ok (rank_key p).
Proof. unfold key_ok, rank_key. cbn [fst]. now rewrite is_nan_opp. Qed.

Lemma key_ltb_rank_key (a b : Player) :
  key_ltb (rank_key a) (rank_key b) = true <->
  (score b <? score a)%float = true \/
  ((score a =? score b)%float = true /\ (rating b < rating a)%Z).
Proof.
  rewrite key_ltb_iff. cbn [rank_key fst snd].
  rewrite fltb_opp, feqb_opp. split; (intros [H|[H1 H2]]; [now left|right]);
    (split; [exact H1|lia]).
Qed.

Lemma rank_key_le (a b : Player) :
  is_nan (score a) = false -> is_nan (score b) = false ->
  key_le key_ltb rank_key a b <-> ranks_before a b.
Proof.
  intros Na Nb. unfold key_le, ranks_before.
  rewrite <- not_true_iff_false, key_ltb_rank_key.
  rewrite !fltb_iff, !feqb_iff.
  destruct (sf_total (Prim2SF (score a)) (Prim2SF (score b))) as [L|[L|L]];
    destruct (Z_lt_le_dec (rating a) (rating b)) as [Z|Z];
    unfold sf_lt, sf_eq in *; intuition lia.
Qed.

Lemma rank_key_same (a b : Player) :
  is_nan (score a) = false -> is_nan (score b) = false ->
  same_key key_ltb rank_key a b = tied a b.
Proof.
  intros Na Nb. apply eq_true_iff_eq. unfold same_key, tied.
  rewrite !andb_true_iff, !negb_true_iff, <- !not_true_iff_false.
  rewrite !key_ltb_rank_key, Z.eqb_eq, !fltb_iff, !feqb_iff.
  destruct (sf_total (Prim2SF (score a)) (Prim2SF (score b))) as [L|[L|L]];
    destruct (Z.lt_total (rating a) (rating b)) as [Z|[Z|Z]];
    unfold sf_lt, sf_eq in *; intuition lia.
Qed.

Lemma tied_nan (p : Player) (l : list Player) :
  is_nan (score p) = true -> filter (tied p) l = [].
Proof.
  intro N. induction l as [|x l IH]; [reflexivity|]. cbn [filter].
  replace (tied p x) with false; [exact IH|]. symmetry.
  unfold tied. apply andb_false_iff. left.
  apply not_true_iff_false. intro E. apply feqb_iff in E.
  destruct E as (E & _). congruence.
Qed.

Lemma StronglySorted_nth {A : Type} (R : A -> A -> Prop) (d : A)
    (l : list A) (i j : nat) :
  StronglySorted R l -> (i < j)%nat -> (j < List.length l)%nat ->
  R (nth i l d) (nth j l d).
Proof.
  intro S. revert i j. induction S as [|x l S IH F]; intros i j Hij Hj.
  - simpl in Hj. lia.
  - destruct j as [|j]; [lia|]. destruct i as [|i]; cbn [nth].
    + rewrite Forall_forall in F. apply F, nth_In. simpl in Hj. lia.
    + apply IH; simpl in Hj; lia.
Qed.

Lemma StronglySorted_weaken_in {A : Type} (R R' : A -> A -> Prop)
    (l : list A) :
  (forall a b, In a l -> In b l -> R a b -> R' a b) ->
  StronglySorted R l -> StronglySorted R' l.
Proof.
  intros HR S. induction S as [|a l S IH F]; constructor.
  - apply IH. intros x y Hx Hy. apply HR; now right.
  - rewrite Forall_forall in *. intros b Hb.
    apply HR; [now left|now right|now apply F].
Qed.

Lemma assign_ranks_length (i : Z) (l : list Player) :
  List.length (assign_ranks i l) = List.length l.
Proof.
  revert i. induction l as [|p l IH]; intro i; simpl; auto.
Qed.

Lemma assign_ranks_unranked (i : Z) (l : list Player) :
  map unranked (assign_ranks i l) = map unranked l.
Proof.
  revert i. induction l as [|p l IH]; intro i; simpl; [reflexivity|].
  now rewrite IH.
Qed.

Lemma assign_ranks_In (i : Z) (l : list Player) (q : Player) :
  In q (assign_ranks i l) -> exists p k, In p l /\ q = set_rank k p.
Proof.
  revert i. induction l as [|p l IH]; intros i H; [destruct H|].
  destruct H as [<-|H].
  - exists p, (i + 1)%Z. split; [now left|reflexivity].
  - destruct (IH _ H) as (p' & k & Hp & ->).
    exists p', k. split; [now right|reflexivity].
Qed.

Lemma assign_ranks_sorted (i : Z) (l : list Player) :
  StronglySorted ranks_before l ->
  StronglySorted ranks_before (assign_ranks i l).
Proof.
  intro S. revert i. induction S as [|p l S IH F]; intro i; simpl.
  - constructor.
  - constructor; [apply IH|].
    rewrite Forall_forall in *. intros q Hq.
    destruct (assign_ranks_In _ _ _ Hq) as (p' & k & Hp' & ->).
    exact (F p' Hp').
Qed.

Lemma assign_ranks_tied (p : Player) (i : Z) (l : list Player) :
  map unranked (filter (tied p) (assign_ranks i l)) =
  map unranked (filter (tied p) l).
Proof.
  revert i. induction l as [|x l IH]; intro i; [reflexivity|].
  cbn [assign_ranks filter].
  change (tied p (set_rank (i + 1) x)) with (tied p x).
  destruct (tied p x); cbn [map]; now rewrite IH.
Qed.

Lemma assign_ranks_rank (l : list Player) (i : Z) (r : nat) :
  (r < List.length l)%nat ->
  rank (nth r (assign_ranks i l) no_player) = (i + Z.of_nat r + 1)%Z.
Proof.
  revert i r. induction l as [|p l IH]; intros i r Hr; [simpl in Hr; lia|].
  destruct r as [|r]; cbn [assign_ranks nth].
  - simpl. lia.
  - rewrite IH by (simpl in Hr; lia). lia.
Qed.

Lemma assign_ranks_ranks (i : Z) (l : list Player) :
  map rank (assign_ranks i l) =
  map (fun k => (i + Z.of_nat k + 1)%Z) (seq 0 (List.length l)).
Proof.
  revert i. induction l as [|p l IH]; intro i; [reflexivity|].
  cbn [assign_ranks map length seq]. f_equal; [simpl; lia|].
  rewrite IH, <- seq_shift, map_map. apply map_ext. intro k. lia.
Qed.

Lemma update_ranks_length (ps : list Player) :
  List.length (update_ranks ps) = List.length ps.
Proof.
  unfold update_ranks. now rewrite assign_ranks_length, sort_by_length.
Qed.

(** Every snapshot is ranked. *)
Lemma update_ranks_ranked (ps : list Player) : ranked (update_ranks ps).
Proof.
  intros r Hr. unfold rank_of, deref, update_ranks in *.
  rewrite assign_ranks_length in Hr. now rewrite assign_ranks_rank.
Qed.

Lemma update_ranks_perm (ps : list Player) :
  Permutation (map unranked (update_ranks ps)) (map unranked ps).
Proof.
  unfold update_ranks. rewrite assign_ranks_unranked.
  apply Permutation_map, sort_by_perm.
Qed.

Lemma update_ranks_ids (ps : list Player) :
  Permutation (map id (update_ranks ps)) (map id ps).
Proof.
  pose proof (Permutation_map id (update_ranks_perm ps)) as H.
  rewrite !map_map in H. exact H.
Qed.

Lemma scored_In (ps : list Player) (p : Player) :
  scored ps -> In p ps -> is_nan (score p) = false.
Proof. unfold scored. rewrite Forall_forall. auto. Qed.

Lemma scored_keys (ps : list Player) :
  scored ps -> Forall (fun y => key_ok (rank_key y)) ps.
Proof.
  apply Forall_impl. intros p. apply rank_key_ok.
Qed.

Lemma update_ranks_sorted (ps : list Player) :
  scored ps -> StronglySorted ranks_before (update_ranks ps).
Proof.
  intro Hs. unfold update_ranks. apply assign_ranks_sorted.
  eapply StronglySorted_weaken_in;
    [|apply (sort_by_sorted key_ltb rank_key key_ok
               key_ltb_asym key_ltb_cotrans), scored_keys, Hs].
  intros a b Ha Hb. apply rank_key_le; apply (scored_In ps); try exact Hs.
  - exact (Permutation_in _ (sort_by_perm key_ltb rank_key ps) Ha).
  - exact (Permutation_in _ (sort_by_perm key_ltb rank_key ps) Hb).
Qed.

Lemma update_ranks_stable (ps : list Player) (p : Player) :
  scored ps ->
  map unranked (filter (tied p) (update_ranks ps)) =
  map unranked (filter (tied p) ps).
Proof.
  intro Hs. unfold update_ranks. rewrite assign_ranks_tied. f_equal.
  destruct (is_nan (score p)) eqn:N; [now rewrite !tied_nan|].
  rewrite (filter_ext_in (tied p) (same_key key_ltb rank_key p)
             (sort_by key_ltb rank_key ps)).
  - rewrite (filter_ext_in (tied p) (same_key key_ltb rank_key p) ps).
    + apply (sort_by_stable key_ltb rank_key key_ok key_ltb_cotrans).
      now apply rank_key_ok.
    + intros x Hx. symmetry. apply rank_key_same; [exact N|].
      exact (scored_In ps x Hs Hx).
  - intros x Hx. symmetry. apply rank_key_same; [exact N|].
    apply (scored_In ps x Hs).
    exact (Permutation_in _ (sort_by_perm key_ltb rank_key ps) Hx).
Qed.

(** C10, amended.  When no score is a NaN, [update_ranks] keeps the
    players (up to their ranks), puts them in the order of score
    descending then rating descending, keeps the input order among
    players of equal score and rating (the sort is stable), and numbers
    them 1, 2, 3, ... from the first of that order. *)
Theorem update_ranks_order (ps : list Player) :
  scored ps ->
  Permutation (map unranked (update_ranks ps)) (map unranked ps) /\
  StronglySorted ranks_before (update_ranks ps) /\
  (forall p, map unranked (filter (tied p) (update_ranks ps)) =
             map unranked (filter (tied p) ps)) /\
  map rank (update_ranks ps) =
    map (fun i => (Z.of_nat i + 1)%Z) (seq 0 (List.length ps)).
Proof.
  intro Hs.
  split; [apply update_ranks_perm|]. split; [|split].
  - now apply update_ranks_sorted.
  - intro p. now apply update_ranks_stable.
  - unfold update_ranks. rewrite assign_ranks_ranks, sort_by_length.
    apply map_ext. intro k. lia.
Qed.

Lemma five_records_scored : scored five_records.
Proof. repeat constructor. Qed.

Lemma update_ranks_order_witness :
  Permutation (map unranked (update_ranks five_records))
              (map unranked five_records) /\
  StronglySorted ranks_before (update_ranks five_records) /\
  (forall p, map unranked (filter (tied p) (update_ranks five_records)) =
             map unranked (filter (tied p) five_records)) /\
  map rank (update_ranks five_records) =
    map (fun i => (Z.of_nat i + 1)%Z) (seq 0 (List.length five_records)).
Proof.
  apply (update_ranks_order five_records). exact five_records_scored.
Defined.

(** With a NaN among the scores the order of the claim is not reached:
    the records [a] (score 1.0), [n] (NaN), [b] (3.0), of one rating, keep
    their places, since no key is smaller than the key before it, and so
    [b] is ranked third behind [a] with the lower score. *)
Lemma update_ranks_order_counterexample :
  map score nan_records = [1; nan; 3]%float /\
  map id (update_ranks nan_records) = ["a"; "n"; "b"] /\
  map rank (update_ranks nan_records) = [1; 2; 3]%Z /\
  ~ ranks_before (deref (update_ranks nan_records) 0)
                 (deref (update_ranks nan_records) 2) /\
  ~ StronglySorted ranks_before (update_ranks nan_records).
Proof.
  split; [reflexivity|]. split; [reflexivity|]. split; [reflexivity|].
  assert (~ ranks_before (deref (update_ranks nan_records) 0)
                         (deref (update_ranks nan_records) 2)) as H.
  { intros [H|[H _]]; vm_compute in H; discriminate. }
  split; [exact H|]. intro S. apply H.
  exact (StronglySorted_nth ranks_before no_player _ 0 2 S
           (Nat.lt_0_succ 1) (Nat.lt_succ_diag_r 2)).
Qed.

(** ** From references to ids *)

Lemma flat_map_Bye (l : list ref) : flat_map slot_refs (map Bye l) = l.
Proof.
  induction l as [|r l IH]; [reflexivity|]. cbn. now rewrite IH.
Qed.

Lemma run_slots (st : list Player) (odd : list ref) (plan : list slot)
    (out : list Pairing) (st' : list Player) :
  run st odd plan out st' ->
  out = map (slot_pairing st) (slots_of st odd plan) /\
  Permutation (flat_map slot_refs (slots_of st odd plan)) (refs st).
Proof.
  intros [_ _ Hout _ Hcover _ _ _]. unfold slots_of. split.
  - rewrite Hout, !map_app, !map_map. reflexivity.
  - rewrite !flat_map_app, !flat_map_Bye. exact Hcover.
Qed.

Lemma deref_In (st : list Player) (r : ref) :
  (r < List.length st)%nat -> In (deref st r) st.
Proof. intro H. now apply nth_In. Qed.

Lemma slot_in_store (st : list Player) (slots : list slot) (x : slot)
    (r : ref) :
  Permutation (flat_map slot_refs slots) (refs st) ->
  In x slots -> In r (slot_refs x) -> In (deref st r) st.
Proof.
  intros Hp Hx Hr. apply deref_In.
  assert (In r (refs st)) as H.
  { eapply Permutation_in; [exact Hp|]. apply in_flat_map. eauto. }
  apply in_seq in H. lia.
Qed.

Lemma plain_ids_update_ranks (ps : list Player) :
  plain_ids ps -> plain_ids (update_ranks ps).
Proof.
  intros H p Hp. apply (in_map id) in Hp.
  apply (Permutation_in _ (update_ranks_ids ps)) in Hp.
  apply in_map_iff in Hp. destruct Hp as (q & <- & Hq). now apply H.
Qed.

Lemma is_bye_plain (w b : string) :
  plain_id b -> is_bye (new_Pairing w b) = false.
Proof.
  intros [H1 H2]. cbn [new_Pairing is_bye].
  apply String.eqb_neq in H1, H2. now rewrite H1, H2.
Qed.

(** With plain ids a pairing stands for exactly the players of its
    slot. *)
Lemma pairing_ids_slot (st : list Player) (x : slot) :
  (forall r, In r (slot_refs x) -> plain_id (id (deref st r))) ->
  pairing_ids (slot_pairing st x) = map (fun r => id (deref st r)) (slot_refs x).
Proof.
  intro H. destruct x as [r|w b]; cbn [slot_pairing slot_refs map].
  - reflexivity.
  - unfold pairing_ids. rewrite is_bye_plain; [reflexivity|].
    apply H. cbn. auto.
Qed.

Lemma pairing_ids_slots (st : list Player) (slots : list slot) :
  (forall x r, In x slots -> In r (slot_refs x) ->
               plain_id (id (deref st r))) ->
  flat_map pairing_ids (map (slot_pairing st) slots) =
  map (fun r => id (deref st r)) (flat_map slot_refs slots).
Proof.
  induction slots as [|x slots IH]; intro H; [reflexivity|].
  cbn [map flat_map]. rewrite map_app, IH, pairing_ids_slot.
  - reflexivity.
  - intros r Hr. apply (H x r); [now left|exact Hr].
  - intros y r Hy Hr. apply (H y r); [now right|exact Hr].
Qed.

Lemma ids_of_refs (st : list Player) :
  map (fun r => id (deref st r)) (refs st) = map id st.
Proof.
  rewrite <- (deref_refs st) at 2. now rewrite map_map.
Qed.

(** The ids the emitted pairings stand for are the ids of the snapshot. *)
Lemma run_ids (ps : list Player) (odd : list ref) (plan : list slot)
    (out : list Pairing) (st' : list Player) :
  plain_ids ps ->
  run (update_ranks ps) odd plan out st' ->
  Permutation (flat_map pairing_ids out) (map id ps).
Proof.
  intros Hplain Hrun. destruct (run_slots _ _ _ _ _ Hrun) as [-> Hperm].
  rewrite pairing_ids_slots.
  - rewrite (Permutation_map _ Hperm), ids_of_refs. apply update_ranks_ids.
  - intros x r Hx Hr. apply (plain_ids_update_ranks ps Hplain).
    exact (slot_in_store _ _ _ _ Hperm Hx Hr).
Qed.

Lemma NoDup_app_apart {A : Type} (l1 l2 : list A) :
  NoDup (l1 ++ l2) -> NoDup l2 /\ forall a, In a l1 -> ~ In a l2.
Proof.
  induction l1 as [|b l1 IH]; cbn [app]; intro N.
  - split; [exact N|]. intros a [].
  - inversion N as [|? ? Hb N']; subst. destruct (IH N') as [N2 H].
    split; [exact N2|]. intros a [<-|Ha]; [|now apply H].
    intro G. apply Hb, in_or_app. now right.
Qed.

Lemma mentions_In (x : string) (p : Pairing) :
  mentions x p = true <-> In x (pairing_ids p).
Proof.
  unfold mentions. rewrite existsb_exists. split.
  - intros (y & Hy & E). apply String.eqb_eq in E. now subst.
  - intro H. exists x. split; [exact H|apply String.eqb_refl].
Qed.

Lemma mentions_none (x : string) (out : list Pairing) :
  ~ In x (flat_map pairing_ids out) -> filter (mentions x) out = [].
Proof.
  induction out as [|p out IH]; intro H; [reflexivity|].
  cbn [flat_map filter] in *. destruct (mentions x p) eqn:M.
  - exfalso. apply H, in_or_app. left. now apply mentions_In.
  - apply IH. intro G. apply H, in_or_app. now right.
Qed.

(** Among pairings that share no player, a player who occurs at all is
    in exactly one of them. *)
Lemma mentions_once (x : string) (out : list Pairing) :
  NoDup (flat_map pairing_ids out) -> In x (flat_map pairing_ids out) ->
  List.length (filter (mentions x) out) = 1%nat.
Proof.
  induction out as [|p out IH]; intros N Hin; [destruct Hin|].
  cbn [flat_map filter] in *. apply NoDup_app_apart in N.
  destruct N as [N Hdis].
  destruct (mentions x p) eqn:M.
  - rewrite mentions_none; [reflexivity|].
    apply Hdis. now apply mentions_In.
  - apply IH; [exact N|].
    apply in_app_or in Hin. destruct Hin as [Hin|Hin]; [|exact Hin].
    apply mentions_In in Hin. congruence.
Qed.

(** ** Coverage, the bye flag and parity *)

Lemma is_bye_new_Pairing (w b : string) :
  is_bye (new_Pairing w b) = true <-> b = "" \/ b = "0".
Proof.
  cbn [new_Pairing is_bye]. now rewrite orb_true_iff, !String.eqb_eq.
Qed.

Lemma count_pairing_ids (out : list Pairing) :
  List.length (flat_map pairing_ids out) = (byes out + 2 * decided out)%nat.
Proof.
  unfold byes, decided. induction out as [|p out IH]; [reflexivity|].
  cbn [flat_map filter]. rewrite length_app, IH. unfold pairing_ids.
  destruct (is_bye p); cbn [negb length]; lia.
Qed.

(** With plain ids, an emitted pairing has an empty black id exactly
    when it is flagged as a bye, and the two id fields name the players
    the pairing stands for. *)
Lemma run_pairing (ps : list Player) (odd : list ref) (plan : list slot)
    (out : list Pairing) (st' : list Player) (p : Pairing) :
  plain_ids ps ->
  run (update_ranks ps) odd plan out st' ->
  In p out ->
  (is_bye p = true <-> black p = "") /\ white p <> "" /\
  forall x, x <> "" -> names x p = mentions x p.
Proof.
  intros Hplain Hrun Hp. destruct (run_slots _ _ _ _ _ Hrun) as [-> Hperm].
  apply in_map_iff in Hp. destruct Hp as (x & <- & Hx).
  assert (forall r, In r (slot_refs x) ->
                    plain_id (id (deref (update_ranks ps) r))) as Hid.
  { intros r Hr. apply (plain_ids_update_ranks ps Hplain).
    exact (slot_in_store _ _ _ _ Hperm Hx Hr). }
  destruct x as [r|w b]; cbn [slot_pairing slot_refs] in *.
  - destruct (Hid r (or_introl eq_refl)) as [Hr _].
    split; [now split|]. split; [exact Hr|].
    intros y Hy. unfold names, mentions, pairing_ids, bye_Pairing.
    change (is_bye (new_Pairing (id (deref (update_ranks ps) r)) ""))
      with true.
    cbn [new_Pairing white black existsb].
    apply String.eqb_neq in Hy. rewrite String.eqb_sym in Hy.
    rewrite Hy, !orb_false_r. apply String.eqb_sym.
  - destruct (Hid w (or_introl eq_refl)) as [Hw _].
    pose proof (Hid b (or_intror (or_introl eq_refl))) as Hb.
    split; [|split; [exact Hw|]].
    + rewrite (is_bye_plain _ _ Hb). cbn [new_Pairing black].
      destruct Hb as [Hb _]. split; [discriminate|contradiction].
    + intros y _. unfold names, mentions, pairing_ids.
      rewrite (is_bye_plain _ _ Hb).
      cbn [new_Pairing white black existsb]. rewrite orb_false_r.
      now rewrite (String.eqb_sym y), (String.eqb_sym y).
Qed.

(** C1, amended.  For every snapshot whose player ids are unique and none
    of whose ids is the empty string or "0", [compute_pairings] returns,
    and every player id of the snapshot is among the players of exactly
    one returned pairing (and written in a field of exactly one). *)
Theorem coverage (ps : list Player) :
  NoDup (map id ps) -> plain_ids ps ->
  exists out st',
    compute_pairings (update_ranks ps) = Some (Ok (out, st')) /\
    forall p, In p ps ->
      List.length (filter (mentions (id p)) out) = 1%nat /\
      List.length (filter (names (id p)) out) = 1%nat.
Proof.
  intros Hnd Hplain.
  destruct (compute_pairings_run _ (update_ranks_ranked ps))
    as (odd & plan & out & st' & Hrun).
  exists out, st'. split; [apply Hrun|].
  intros p Hp. pose proof (run_ids ps _ _ _ _ Hplain Hrun) as Hperm.
  assert (List.length (filter (mentions (id p)) out) = 1%nat) as H1.
  { apply mentions_once.
    - eapply Permutation_NoDup; [symmetry; exact Hperm|exact Hnd].
    - eapply Permutation_in; [symmetry; exact Hperm|]. now apply in_map. }
  split; [exact H1|]. rewrite <- H1. f_equal.
  apply filter_ext_in. intros q Hq.
  apply (run_pairing ps _ _ _ _ q Hplain Hrun Hq).
  apply (Hplain p Hp).
Qed.

Lemma five_plain : plain_ids five_records.
Proof.
  intros p Hp. cbn in Hp.
  repeat (destruct Hp as [<-|Hp]; [split; discriminate|]). destruct Hp.
Qed.

Lemma five_NoDup : NoDup (map id five_records).
Proof.
  cbn. repeat constructor; cbn; intuition discriminate.
Qed.

Lemma coverage_witness :
  exists out st',
    compute_pairings (update_ranks five_records) = Some (Ok (out, st')) /\
    forall p, In p five_records ->
      List.length (filter (mentions (id p)) out) = 1%nat /\
      List.length (filter (names (id p)) out) = 1%nat.
Proof.
  exact (coverage five_records five_NoDup five_plain).
Defined.

(** C1 as stated fails.  With the unique ids "1" and "0" the only pairing
    returned is flagged as a bye of "1", so "0" is a player of no pairing.
    With the unique ids "a", "" and "b" the player "" is a player of no
    pairing, and the empty id is written in the black field of both. *)
Lemma coverage_counterexample :
  (map id zero_id = ["1"; "0"] /\
   exists st',
     compute_pairings zero_id =
       Some (Ok ([{| white := "1"; black := "0"; is_bye := true |}], st')) /\
     List.length
       (filter (mentions "0")
          [{| white := "1"; black := "0"; is_bye := true |}]) = 0%nat) /\
  (map id empty_id = ["a"; ""; "b"] /\
   exists st',
     compute_pairings empty_id =
       Some (Ok ([{| white := "b"; black := ""; is_bye := true |};
                  {| white := "a"; black := ""; is_bye := true |}], st')) /\
     List.length
       (filter (mentions "")
          [{| white := "b"; black := ""; is_bye := true |};
           {| white := "a"; black := ""; is_bye := true |}]) = 0%nat /\
     List.length
       (filter (names "")
          [{| white := "b"; black := ""; is_bye := true |};
           {| white := "a"; black := ""; is_bye := true |}]) = 2%nat).
Proof.
  split; (split; [reflexivity|]).
  - eexists. split; [vm_compute; reflexivity|reflexivity].
  - eexists. split; [vm_compute; reflexivity|]. split; reflexivity.
Qed.

(** C2, amended.  For every snapshot none of whose player ids is the
    empty string or "0", every pairing [compute_pairings] returns is
    flagged as a bye if and only if its black id is empty, and its white
    id is not empty. *)
Theorem pairing_invariant (ps : list Player) :
  plain_ids ps ->
  exists out st',
    compute_pairings (update_ranks ps) = Some (Ok (out, st')) /\
    forall p, In p out ->
      (is_bye p = true <-> black p = "") /\ white p <> "".
Proof.
  intro Hplain.
  destruct (compute_pairings_run _ (update_ranks_ranked ps))
    as (odd & plan & out & st' & Hrun).
  exists out, st'. split; [apply Hrun|].
  intros p Hp.
  destruct (run_pairing ps _ _ _ _ p Hplain Hrun Hp) as (H1 & H2 & _).
  now split.
Qed.

Lemma pairing_invariant_witness :
  exists out st',
    compute_pairings (update_ranks five_records) = Some (Ok (out, st')) /\
    forall p, In p out ->
      (is_bye p = true <-> black p = "") /\ white p <> "".
Proof.
  exact (pairing_invariant five_records five_plain).
Defined.

(** C2 as stated fails.  The constructor flags a pairing whose black id
    is "0" as a bye although an opponent is present, and a lone player
    with the empty id gets a pairing whose white id is empty. *)
Lemma pairing_invariant_counterexample :
  (exists st',
     compute_pairings zero_id =
       Some (Ok ([{| white := "1"; black := "0"; is_bye := true |}], st'))) /\
  ~ (is_bye (new_Pairing "1" "0") = true <-> black (new_Pairing "1" "0") = "")
  /\
  (exists st',
     compute_pairings (update_ranks [P "" 1500 1 [] [] false]) =
       Some (Ok ([{| white := ""; black := ""; is_bye := true |}], st'))).
Proof.
  split; [eexists; vm_compute; reflexivity|]. split.
  - intros [H _]. specialize (H eq_refl). discriminate.
  - eexists. vm_compute. reflexivity.
Qed.

(** C3, amended.  For every snapshot none of whose player ids is the
    empty string or "0", the number of returned pairings flagged as byes
    plus twice the number of the others is the number of players. *)
Theorem parity (ps : list Player) :
  plain_ids ps ->
  exists out st',
    compute_pairings (update_ranks ps) = Some (Ok (out, st')) /\
    (byes out + 2 * decided out)%nat = List.length ps.
Proof.
  intro Hplain.
  destruct (compute_pairings_run _ (update_ranks_ranked ps))
    as (odd & plan & out & st' & Hrun).
  exists out, st'. split; [apply Hrun|].
  rewrite <- count_pairing_ids.
  rewrite (Permutation_length (run_ids ps _ _ _ _ Hplain Hrun)).
  apply length_map.
Qed.

Lemma parity_witness :
  exists out st',
    compute_pairings (update_ranks five_records) = Some (Ok (out, st')) /\
    (byes out + 2 * decided out)%nat = List.length five_records.
Proof.
  exact (parity five_records five_plain).
Defined.

(** C3 as stated fails.  For the two players "1" and "0" the one pairing
    returned is flagged as a bye: one bye and no other pairing, for two
    players. *)
Lemma parity_counterexample :
  exists out st',
    compute_pairings zero_id = Some (Ok (out, st')) /\
    (byes out + 2 * decided out)%nat = 1%nat /\
    List.length zero_id = 2%nat.
Proof.
  eexists. eexists. split; [vm_compute; reflexivity|]. split; reflexivity.
Qed.

(** ** Byes *)

Lemma existsb_eqb_In (x : ref) (l : list ref) :
  In x l -> existsb (Nat.eqb x) l = true.
Proof.
  intro H. apply existsb_exists. exists x. split; [exact H|].
  apply Nat.eqb_refl.
Qed.



Lemma sorted_refs (st : list Player) (l : list ref) :
  ranked st -> in_store st l -> StronglySorted lt l ->
  StronglySorted Z.lt (map (rank_of st) l).
Proof.
  intros R B S. induction S as [|r l S IH F]; cbn [map]; [constructor|].
  inversion B as [|? ? Hr Bl]; subst.
  constructor; [now apply IH|].
  rewrite Forall_forall in *. intros k Hk.
  apply in_map_iff in Hk. destruct Hk as (e & <- & He).
  rewrite (R r Hr), (R e (Bl e He)). specialize (F e He). lia.
Qed.

Lemma sorted_filter (f : ref -> bool) (l : list ref) :
  StronglySorted lt l -> StronglySorted lt (filter f l).
Proof.
  induction 1 as [|r l S IH F]; cbn [filter]; [constructor|].
  destruct (f r); [|exact IH]. constructor; [exact IH|].
  rewrite Forall_forall in *. intros e He. apply filter_In in He.
  now apply F.
Qed.

Lemma sorted_seq (a n : nat) : StronglySorted lt (seq a n).
Proof.
  revert a. induction n as [|n IH]; intro a; cbn [seq]; constructor.
  - apply IH.
  - apply Forall_forall. intros e He. apply in_seq in He. lia.
Qed.

Lemma late_joiners_In (st : list Player) (r : ref) :
  In r (late_joiners st) <->
  (r < List.length st)%nat /\
  (games_played (deref st r) < max_games_of st)%nat.
Proof.
  unfold late_joiners, late, refs. rewrite filter_In, in_seq, Nat.ltb_lt.
  intuition lia.
Qed.

(** C5.  The late joiners are the players with fewer games than the
    maximum of the snapshot.  The late-joiner loop leaves the other
    players in the pool; the list returned starts with one bye pairing
    per late joiner, in rank order; no late joiner is in a later pairing;
    on return every late joiner has [has_bye] set. *)
Theorem late_joiner_byes (ps : list Player) :
  exists st1 odd plan out st',
    late_joiner_loop
      (late_joiners_of (update_ranks ps) (refs (update_ranks ps)))
      (start (update_ranks ps)) =
      Ok {| store := st1;
            available_players := pool_of (update_ranks ps);
            pairings := map (bye_of (update_ranks ps))
                          (late_joiners (update_ranks ps)) |} /\
    compute_pairings (update_ranks ps) = Some (Ok (out, st')) /\
    out = map (bye_of (update_ranks ps)) (late_joiners (update_ranks ps))
          ++ map (slot_pairing (update_ranks ps)) (map Bye odd ++ plan) /\
    StronglySorted Z.lt
      (map (rank_of (update_ranks ps)) (late_joiners (update_ranks ps))) /\
    (forall r,
       In r (late_joiners (update_ranks ps)) <->
       (r < List.length (update_ranks ps))%nat /\
       (games_played (deref (update_ranks ps) r)
        < max_games_of (update_ranks ps))%nat) /\
    (forall r,
       In r (late_joiners (update_ranks ps)) ->
       has_bye (deref st' r) = true /\
       ~ In r (pool_of (update_ranks ps)) /\
       ~ In r (flat_map slot_refs (map Bye odd ++ plan)) /\
       is_bye (bye_of (update_ranks ps) r) = true /\
       white (bye_of (update_ranks ps) r) = id (deref (update_ranks ps) r)).
Proof.
  pose proof (update_ranks_ranked ps) as R.
  destruct (compute_pairings_run _ R)
    as (odd & plan & out & st' & [Hlate _ Hout Hres Hcover _ _ Hbye]).
  destruct Hlate as (st1 & Hlate & _).
  exists st1, odd, plan, out, st'.
  split; [exact Hlate|]. split; [exact Hres|]. split; [|split; [|split]].
  - rewrite Hout, map_app, map_map. reflexivity.
  - apply sorted_refs; [exact R| |apply sorted_filter, sorted_seq].
    apply in_store_filter, (inv_in_store _ (inv_start _ R)).
  - apply late_joiners_In.
  - intros r Hr. split; [|split; [|split; [|split; reflexivity]]].
    + rewrite Hbye, existsb_app.
      apply orb_true_iff. right. apply orb_true_iff. left.
      now apply existsb_eqb_In.
    + intro Hp. apply pool_not_late in Hp.
      rewrite (existsb_eqb_In _ _ Hr) in Hp. discriminate.
    + rewrite flat_map_app, flat_map_Bye.
      assert (NoDup (late_joiners (update_ranks ps)
                     ++ odd ++ flat_map slot_refs plan)) as N.
      { eapply Permutation_NoDup; [symmetry; exact Hcover|].
        apply seq_NoDup. }
      apply NoDup_app_apart in N. destruct N as [_ N]. now apply N.
Qed.

(** ** Matching and colours *)




(** C7.  [assign_colors a b] returns (white, black).  The player of
    strictly greater colour balance is black; at equal balances the
    player of higher rating is white; at equal ratings too, the first
    argument (the anchor) is white. *)
Theorem assign_colors_policy (a b : Player) :
  ((color_balance a > color_balance b)%Z -> assign_colors a b = (b, a)) /\
  ((color_balance b > color_balance a)%Z -> assign_colors a b = (a, b)) /\
  (color_balance a = color_balance b ->
     ((rating a > rating b)%Z -> assign_colors a b = (a, b)) /\
     ((rating b > rating a)%Z -> assign_colors a b = (b, a)) /\
     (rating a = rating b -> assign_colors a b = (a, b))).
Proof.
  unfold assign_colors.
  destruct (Z.gtb_spec (color_balance a) (color_balance b)) as [H1|H1];
    destruct (Z.gtb_spec (color_balance b) (color_balance a)) as [H2|H2];
    destruct (Z.geb_spec (rating a) (rating b)) as [H3|H3];
    repeat split; intros; try reflexivity; lia.
Qed.

(** ** Errors *)

Lemma list_remove_raises (st : list Player) (x : ref) (l : list ref)
    (e : exn) :
  list_remove st x l = Raise e ->
  e = ValueError "list.remove(x): x not in list".
Proof.
  induction l as [|y l IH]; cbn [list_remove].
  - now intros [= <-].
  - destruct ((y =? x)%nat || Player_eqb (deref st y) (deref st x));
      [discriminate|].
    destruct (list_remove st x l) as [l'|e']; cbn [bind]; [discriminate|].
    intros [= <-]. now apply IH.
Qed.

(** C8.  A turn of the matching loop raises the algorithm error exactly
    when [find_best_opponent] returns no opponent, and the error then
    carries the anchor's id; [find_best_opponent] returns an opponent
    whenever a candidate is left; and for every snapshot
    [compute_pairings] returns its pairings: no error is raised. *)
Theorem algorithm_error_unreachable :
  (forall s player1 rest,
     (exists msg, matching_step s player1 rest = Raise (Exception msg)) <->
     fst (find_best_opponent (store s) player1 rest) = None) /\
  (forall s player1 rest,
     fst (find_best_opponent (store s) player1 rest) = None ->
     matching_step s player1 rest =
       Raise (Exception ("No valid opponent found for player "
                         ++ id (deref (store s) player1))%string)) /\
  (forall st player candidates,
     candidates <> [] ->
     fst (find_best_opponent st player candidates) <> None) /\
  (forall ps, exists out st',
     compute_pairings (update_ranks ps) = Some (Ok (out, st'))).
Proof.
  split; [|split; [|split]].
  - intros s player1 rest. unfold matching_step.
    destruct (find_best_opponent (store s) player1 rest) as [[r|] pool];
      cbn [fst].
    + split; [|discriminate]. intros [msg H]. exfalso.
      destruct (list_remove (store s) r pool) as [l|e] eqn:E; cbn [bind] in H.
      * destruct (assign_colors _ _). discriminate.
      * apply list_remove_raises in E. subst e. discriminate.
    + split; [reflexivity|]. intros _. eexists. reflexivity.
  - intros s player1 rest. unfold matching_step.
    destruct (find_best_opponent (store s) player1 rest) as [[r|] pool];
      cbn [fst]; [discriminate|reflexivity].
  - intros st player candidates Hne.
    destruct (find_best_opponent_some st player candidates Hne)
      as (r & pool & -> & _). discriminate.
  - intro ps.
    destruct (compute_pairings_run _ (update_ranks_ranked ps))
      as (odd & plan & out & st' & Hrun).
    exists out, st'. apply Hrun.
Qed.

(** ** Loading *)

Section Loading.
Variable py_str : pyval -> string.
Variable py_int : pyval -> result Z.
Variable py_float : pyval -> result float.

Lemma load_player_bad (d : player_data) :
  bad_record py_int py_float d ->
  exists e, load_player py_str py_int py_float d = Raise e.
Proof.
  intro H. unfold load_player, subscript.
  destruct (pd_id d) as [vi|] eqn:Ei; cbn [bind]; [|eauto].
  destruct (pd_rating d) as [vr|] eqn:Er; cbn [bind]; [|eauto].
  destruct (py_int vr) as [r|e1] eqn:Hr; cbn [bind]; [|eauto].
  destruct (pd_score d) as [vs|] eqn:Es; cbn [bind]; [|eauto].
  destruct (py_float vs) as [q|e2] eqn:Hs; cbn [bind]; [|eauto].
  exfalso.
  destruct H as [H|[H|[H|[(v & e & H & He)|(v & e & H & He)]]]];
    congruence.
Qed.

Lemma load_player_raise (d : player_data) (e : exn) :
  load_player py_str py_int py_float d = Raise e ->
  raised_for py_int py_float d e.
Proof.
  unfold load_player, subscript, raised_for.
  destruct (pd_id d) as [vi|]; cbn [bind];
    [|intros [= <-]; now left].
  destruct (pd_rating d) as [vr|]; cbn [bind];
    [|intros [= <-]; right; now left].
  destruct (py_int vr) as [r|e1] eqn:Hr; cbn [bind];
    [|intros [= <-]; right; right; right; left; eauto].
  destruct (pd_score d) as [vs|]; cbn [bind];
    [|intros [= <-]; right; right; now left].
  destruct (py_float vs) as [q|e2] eqn:Hs; cbn [bind];
    [discriminate|intros [= <-]; right; right; right; right; eauto].
Qed.

Lemma load_players_bad (l : list player_data) (acc : list Player) :
  Exists (bad_record py_int py_float) l ->
  exists d e,
    In d l /\ raised_for py_int py_float d e /\
    load_players py_str py_int py_float l acc = Raise e.
Proof using Type.
  intro H. revert acc. induction H as [d l Hd|d l H IH]; intro acc.
  - destruct (load_player_bad d Hd) as [e He].
    exists d, e. split; [now left|]. split.
    + now apply load_player_raise.
    + cbn [load_players]. now rewrite He.
  - cbn [load_players].
    destruct (load_player py_str py_int py_float d) as [p|e] eqn:E;
      cbn [bind].
    + destruct (IH (acc ++ [p])) as (d' & e & Hin & Hr & Hl).
      exists d', e. split; [now right|]. now split.
    + exists d, e. split; [now left|]. split; [|reflexivity].
      now apply load_player_raise.
Qed.
End Loading.

(** C9, amended.  When some record lacks a required field or has a rating
    or score the conversion rejects, the construction of the snapshot
    raises and returns no snapshot.  The exception is the one a record of
    the collection ends the load with: the [KeyError] carrying the name of
    an absent field, or the error of [int] or [float] itself, to which the
    loader adds nothing. *)
Theorem load_failure (py_str : pyval -> string)
    (py_int : pyval -> result Z) (py_float : pyval -> result float)
    (l : list player_data) :
  Exists (bad_record py_int py_float) l ->
  exists d e,
    In d l /\ raised_for py_int py_float d e /\
    new_Tournament py_str py_int py_float (Some l) = Raise e.
Proof.
  intro H.
  destruct (load_players_bad py_str py_int py_float l [] H)
    as (d & e & Hin & Hr & Hl).
  exists d, e. split; [exact Hin|]. split; [exact Hr|].
  unfold new_Tournament, load_from_json. cbn [players]. now rewrite Hl.
Qed.

Lemma load_failure_witness :
  exists d e,
    In d [no_rating] /\ raised_for typed_int typed_float d e /\
    new_Tournament typed_str typed_int typed_float (Some [no_rating]) =
      Raise e.
Proof.
  apply (load_failure typed_str typed_int typed_float [no_rating]).
  constructor. right. left. reflexivity.
Defined.

(** C9 as stated fails.  A record without a rating ends the construction
    with [KeyError("rating")], whatever the conversions do; this is not a
    [ValueError], and the handlers answer it as an internal error.  A
    rating the conversion rejects ends it with the conversion's own
    exception, which is built from the value alone. *)
Lemma load_failure_counterexample :
  (forall py_str py_int py_float,
     new_Tournament py_str py_int py_float (Some [no_rating]) =
       Raise (KeyError "rating")) /\
  http_status (KeyError "rating") = 500%Z /\
  (forall py_str py_int py_float v e,
     py_int v = Raise e ->
     new_Tournament py_str py_int py_float (Some [with_rating v]) =
       Raise e) /\
  ~ (forall py_str py_int py_float l,
       Exists (bad_record py_int py_float) l ->
       exists msg,
         new_Tournament py_str py_int py_float (Some l) =
           Raise (ValueError msg)).
Proof.
  split; [reflexivity|]. split; [reflexivity|]. split.
  - intros py_str py_int py_float v e H.
    unfold new_Tournament, load_from_json, load_players, load_player.
    cbn [with_rating pd_id pd_rating subscript bind players app].
    now rewrite H.
  - intro H.
    destruct (H typed_str typed_int typed_float [no_rating]) as [msg Hm].
    + constructor. right. left. reflexivity.
    + discriminate.
Qed.

(** Every snapshot the constructor returns is [update_ranks] of the
    players loaded, so the theorems above, stated for [update_ranks ps],
    cover every snapshot. *)
Lemma new_Tournament_players (py_str : pyval -> string)
    (py_int : pyval -> result Z) (py_float : pyval -> result float)
    (json_data : option (list player_data)) (t : Tournament) :
  new_Tournament py_str py_int py_float json_data = Ok t ->
  exists l ps,
    json_data = Some l /\
    load_players py_str py_int py_float l [] = Ok ps /\
    players t = update_ranks ps /\ ranked (players t).
Proof.
  unfold new_Tournament, load_from_json.
  destruct json_data as [l|]; [|discriminate]. cbn [players].
  destruct (load_players py_str py_int py_float l []) as [ps|e] eqn:E;
    cbn [bind]; [|discriminate].
  intro H. exists l, ps. split; [reflexivity|]. split; [exact E|].
  destruct ps as [|p ps]; cbn [bind] in H; injection H as <-;
    cbn [players]; split; try reflexivity; apply update_ranks_ranked.
Qed.

(** ** The examples of the specification *)

(** Five players, equal games played, none byed: the player of rank 5
    gets the odd-pool bye and the others pair by closest score. *)
Example five_pairings :
  exists st',
    compute_pairings five =
      Some (Ok ([bye_Pairing "e"; new_Pairing "a" "b"; new_Pairing "c" "d"],
                st')) /\
    map has_bye st' = [false; false; false; false; true].
Proof.
  eexists. split; [vm_compute; reflexivity|reflexivity].
Qed.

(** A late joiner gets a bye whatever its score or rank; the other three
    go through the odd-pool bye and one game. *)
Example four_pairings :
  map id four = ["w"; "y"; "x"; "z"] /\
  exists st',
    compute_pairings four =
      Some (Ok ([bye_Pairing "y"; bye_Pairing "z"; new_Pairing "w" "x"],
                st')) /\
    map has_bye st' = [false; true; false; true].
Proof.
  split; [reflexivity|].
  eexists. split; [vm_compute; reflexivity|reflexivity].
Qed.

(** Two players equal in everything: the anchor is white. *)
Example twins_pairings :
  exists st',
    compute_pairings twins = Some (Ok ([new_Pairing "m" "n"], st')).
Proof.
  eexists. vm_compute. reflexivity.
Qed.

(* ================================================================= *)
(** * Further properties *)

(** ** The shape of the pairings returned *)

Lemma games_length (plan : list slot) :
  Forall is_game plan ->
  List.length (flat_map slot_refs plan) = (2 * List.length plan)%nat.
Proof.
  induction 1 as [|x plan Hx _ IH]; [reflexivity|].
  destruct x as [r|w b]; [destruct Hx|].
  cbn [flat_map slot_refs app length]. rewrite IH. lia.
Qed.

Lemma game_refs_differ (slots : list slot) (w b : ref) :
  NoDup (flat_map slot_refs slots) -> In (Game w b) slots -> w <> b.
Proof.
  induction slots as [|x slots IH]; intros N H; [destruct H|].
  cbn [flat_map] in N. destruct H as [->|H].
  - cbn [slot_refs app] in N. inversion N as [|? ? Hw _]; subst.
    intros ->. apply Hw. now left.
  - apply IH; [|exact H]. now apply NoDup_app_apart in N.
Qed.

Lemma id_injective (st : list Player) (w b : ref) :
  NoDup (map id st) ->
  (w < List.length st)%nat -> (b < List.length st)%nat ->
  id (deref st w) = id (deref st b) -> w = b.
Proof.
  intros N Hw Hb E.
  apply (proj1 (NoDup_nth (map id st) (id no_player)) N);
    rewrite ?length_map; auto.
  now rewrite !map_nth.
Qed.

Lemma refs_In (st : list Player) (r : ref) :
  In r (refs st) <-> (r < List.length st)%nat.
Proof. unfold refs. rewrite in_seq. lia. Qed.

Lemma run_odd_length (st : list Player) (odd : list ref) (plan : list slot)
    (out : list Pairing) (st' : list Player) :
  run st odd plan out st' ->
  List.length odd = (List.length (pool_of st) mod 2)%nat /\
  (List.length odd + 2 * List.length plan)%nat = List.length (pool_of st).
Proof.
  intros [_ Hodd _ _ Hcover Hg _ _].
  pose proof (Permutation_length Hcover) as L.
  pose proof (Permutation_length (pool_split st)) as L'.
  rewrite !length_app, (games_length _ Hg) in L. rewrite length_app in L'.
  assert (List.length odd + 2 * List.length plan
          = List.length (pool_of st))%nat as E by lia.
  split; [|exact E].
  destruct (Nat.even (List.length (pool_of st))) eqn:Ev.
  - subst odd. cbn [length] in *. apply Nat.even_spec in Ev.
    destruct Ev as [k Hk]. rewrite Hk, Nat.mul_comm, Nat.Div0.mod_mul.
    reflexivity.
  - destruct Hodd as (r & -> & _). cbn [length] in *.
    rewrite <- E. replace (1 + 2 * List.length plan)%nat
      with (1 + List.length plan * 2)%nat by lia.
    now rewrite Nat.Div0.mod_add.
Qed.

(** X1.  Every player object of a snapshot goes into exactly one pairing:
    the pairings returned are built, in order, from slots of one or two
    players, and the players of all slots are the players of the snapshot,
    each once.  No assumption on the ids is needed. *)
Theorem every_player_placed (ps : list Player) :
  exists slots out st',
    compute_pairings (update_ranks ps) = Some (Ok (out, st')) /\
    out = map (slot_pairing (update_ranks ps)) slots /\
    Permutation (flat_map slot_refs slots) (refs (update_ranks ps)).
Proof.
  destruct (compute_pairings_run _ (update_ranks_ranked ps))
    as (odd & plan & out & st' & Hrun).
  exists (slots_of (update_ranks ps) odd plan), out, st'.
  split; [apply Hrun|]. exact (run_slots _ _ _ _ _ Hrun).
Qed.

(** X2.  With unique, non-empty ids no pairing returned has the same
    white and black id: nobody is paired with themselves. *)
Theorem no_self_pairing (ps : list Player) :
  NoDup (map id ps) -> (forall p, In p ps -> id p <> "") ->
  exists out st',
    compute_pairings (update_ranks ps) = Some (Ok (out, st')) /\
    forall p, In p out -> white p <> black p.
Proof.
  intros Hnd Hne.
  destruct (compute_pairings_run _ (update_ranks_ranked ps))
    as (odd & plan & out & st' & Hrun).
  exists out, st'. split; [apply Hrun|].
  destruct (run_slots _ _ _ _ _ Hrun) as [-> Hperm].
  assert (NoDup (map id (update_ranks ps))) as Hnd'.
  { eapply Permutation_NoDup; [symmetry; apply update_ranks_ids|exact Hnd]. }
  assert (forall r, (r < List.length (update_ranks ps))%nat ->
                    id (deref (update_ranks ps) r) <> "") as Hne'.
  { intros r Hr. apply deref_In, (in_map id) in Hr.
    apply (Permutation_in _ (update_ranks_ids ps)) in Hr.
    apply in_map_iff in Hr. destruct Hr as (q & <- & Hq). now apply Hne. }
  assert (forall x r, In x (slots_of (update_ranks ps) odd plan) ->
                      In r (slot_refs x) ->
                      (r < List.length (update_ranks ps))%nat) as Hin.
  { intros x r Hx Hr. apply refs_In.
    eapply Permutation_in; [exact Hperm|]. apply in_flat_map. eauto. }
  intros p Hp. apply in_map_iff in Hp. destruct Hp as (x & <- & Hx).
  destruct x as [r|w b]; cbn [slot_pairing bye_Pairing new_Pairing white black].
  - apply Hne', (Hin _ r Hx). now left.
  - intro E.
    assert (NoDup (flat_map slot_refs (slots_of (update_ranks ps) odd plan)))
      as N.
    { eapply Permutation_NoDup; [symmetry; exact Hperm|apply seq_NoDup]. }
    apply (game_refs_differ _ w b N Hx).
    apply (id_injective (update_ranks ps)); [exact Hnd'| | |exact E].
    + apply (Hin _ w Hx). now left.
    + apply (Hin _ b Hx). right. now left.
Qed.

Lemma half_up (p o k : nat) :
  o = (p mod 2)%nat -> (o + 2 * k)%nat = p -> ((p + 1) / 2)%nat = (o + k)%nat.
Proof.
  intros H1 H2.
  assert (o < 2)%nat by (subst o; apply Nat.mod_upper_bound; discriminate).
  symmetry. apply (Nat.div_unique _ _ _ (1 - o)); lia.
Qed.

(** X3.  The number of pairings returned is the number of late joiners
    plus half the number of the other players, rounded up. *)
Theorem pairings_count (ps : list Player) :
  exists out st',
    compute_pairings (update_ranks ps) = Some (Ok (out, st')) /\
    List.length out =
      (List.length (late_joiners (update_ranks ps))
       + (List.length (pool_of (update_ranks ps)) + 1) / 2)%nat /\
    (List.length (late_joiners (update_ranks ps))
     + List.length (pool_of (update_ranks ps)))%nat = List.length ps.
Proof.
  destruct (compute_pairings_run _ (update_ranks_ranked ps))
    as (odd & plan & out & st' & Hrun).
  exists out, st'. split; [apply Hrun|].
  destruct (run_odd_length _ _ _ _ _ Hrun) as [Ho Hp].
  split.
  - rewrite (run_out _ _ _ _ _ Hrun), !length_app, !length_map.
    rewrite (half_up _ _ _ Ho Hp). lia.
  - rewrite <- length_app, (Permutation_length (pool_split _)).
    unfold refs. now rewrite length_seq, update_ranks_length.
Qed.

Lemma firstn_length_app {A : Type} (l1 l2 : list A) :
  firstn (List.length l1) (l1 ++ l2) = l1.
Proof.
  induction l1 as [|a l1 IH]; cbn; [now destruct l2|now rewrite IH].
Qed.

Lemma skipn_length_app {A : Type} (l1 l2 : list A) :
  skipn (List.length l1) (l1 ++ l2) = l2.
Proof.
  induction l1 as [|a l1 IH]; cbn; auto.
Qed.

(** X4.  With ids other than the empty string and "0", the pairings
    flagged as byes come first and the games after them: the first
    (late joiners + pool size mod 2) pairings are flagged, no later one
    is. *)
Theorem byes_before_games (ps : list Player) :
  plain_ids ps ->
  exists out st',
    compute_pairings (update_ranks ps) = Some (Ok (out, st')) /\
    Forall (fun p => is_bye p = true)
      (firstn (List.length (late_joiners (update_ranks ps))
               + List.length (pool_of (update_ranks ps)) mod 2) out) /\
    Forall (fun p => is_bye p = false)
      (skipn (List.length (late_joiners (update_ranks ps))
              + List.length (pool_of (update_ranks ps)) mod 2) out).
Proof.
  intro Hplain.
  destruct (compute_pairings_run _ (update_ranks_ranked ps))
    as (odd & plan & out & st' & Hrun).
  exists out, st'. split; [apply Hrun|].
  destruct (run_odd_length _ _ _ _ _ Hrun) as [Ho _].
  destruct (run_slots _ _ _ _ _ Hrun) as [Hmap Hperm].
  pose proof (run_games _ _ _ _ _ Hrun) as Hg.
  rewrite (run_out _ _ _ _ _ Hrun), <- Ho, app_assoc.
  replace (List.length (late_joiners (update_ranks ps)) + List.length odd)%nat
    with (List.length (map (bye_of (update_ranks ps))
                         (late_joiners (update_ranks ps))
                       ++ map (bye_of (update_ranks ps)) odd))
    by now rewrite length_app, !length_map.
  rewrite firstn_length_app, skipn_length_app. split.
  - apply Forall_app. split; apply Forall_forall; intros p Hp;
      apply in_map_iff in Hp; destruct Hp as (r & <- & _); reflexivity.
  - apply Forall_forall. intros p Hp.
    apply in_map_iff in Hp. destruct Hp as (x & <- & Hx).
    rewrite Forall_forall in Hg. pose proof (Hg x Hx) as G.
    destruct x as [r|w b]; [destruct G|]. cbn [slot_pairing].
    apply is_bye_plain, (plain_ids_update_ranks ps Hplain).
    apply (slot_in_store _ _ (Game w b) b Hperm).
    + unfold slots_of. apply in_or_app. right. apply in_or_app. now right.
    + right. now left.
Qed.

Lemma byes_before_games_witness :
  exists out st',
    compute_pairings (update_ranks five_records) = Some (Ok (out, st')) /\
    Forall (fun p => is_bye p = true)
      (firstn (List.length (late_joiners (update_ranks five_records))
               + List.length (pool_of (update_ranks five_records)) mod 2)
              out) /\
    Forall (fun p => is_bye p = false)
      (skipn (List.length (late_joiners (update_ranks five_records))
              + List.length (pool_of (update_ranks five_records)) mod 2)
             out).
Proof.
  exact (byes_before_games five_records five_plain).
Defined.

Lemma no_self_pairing_witness :
  exists out st',
    compute_pairings (update_ranks five_records) = Some (Ok (out, st')) /\
    forall p, In p out -> white p <> black p.
Proof.
  apply (no_self_pairing five_records five_NoDup).
  intros p Hp. apply (five_plain p Hp).
Defined.



(** ** Ranking, again *)


Lemma assign_ranks_ascending (i : Z) (l : list Player) :
  Sorted (key_le key_ltb rank_key) l ->
  Sorted (key_le key_ltb rank_key) (assign_ranks i l).
Proof.
  intro S. revert i. induction S as [|p l S IH F]; intro i;
    cbn [assign_ranks]; constructor.
  - apply IH.
  - destruct F as [|q l F]; cbn [assign_ranks]; constructor. exact F.
Qed.

Lemma assign_ranks_twice (i j : Z) (l : list Player) :
  assign_ranks i (assign_ranks j l) = assign_ranks i l.
Proof.
  revert i j. induction l as [|p l IH]; intros i j; [reflexivity|].
  cbn [assign_ranks]. now rewrite IH.
Qed.

(** X6.  Ranking a ranked snapshot again changes nothing: neither the
    order of the players nor a rank. *)
Theorem update_ranks_again (ps : list Player) :
  update_ranks (update_ranks ps) = update_ranks ps.
Proof.
  unfold update_ranks at 1.
  rewrite sort_by_ascending_same.
  - unfold update_ranks. apply assign_ranks_twice.
  - unfold update_ranks. apply assign_ranks_ascending.
    apply sort_by_ascending. exact key_ltb_asym.
Qed.

(** X7.  In a snapshot without a NaN score a player with a greater
    score, or with the same score and a greater rating, has the smaller
    rank; and of two players the one with the smaller rank never has the
    smaller score. *)
Theorem better_score_better_rank (ps : list Player) (p q : Player) :
  scored ps ->
  In p (update_ranks ps) -> In q (update_ranks ps) ->
  ((score q <? score p)%float = true \/
   ((score p =? score q)%float = true /\ (rating q < rating p)%Z) ->
   (rank p < rank q)%Z) /\
  ((rank p < rank q)%Z -> (score q <=? score p)%float = true).
Proof.
  intros Hs Hp Hq.
  destruct (In_nth _ _ no_player Hp) as (i & Hi & Ei).
  destruct (In_nth _ _ no_player Hq) as (j & Hj & Ej).
  pose proof (update_ranks_ranked ps i Hi) as Ri.
  pose proof (update_ranks_ranked ps j Hj) as Rj.
  unfold rank_of, deref in Ri, Rj. rewrite Ei in Ri. rewrite Ej in Rj.
  pose proof (update_ranks_sorted ps Hs) as S.
  split.
  - intro H. rewrite Ri, Rj.
    destruct (Nat.lt_trichotomy i j) as [L|[L|L]]; [lia| |].
    + exfalso. subst j. rewrite Ei in Ej. subst q.
      destruct H as [H|[_ H]]; [|lia].
      now rewrite fltb_irrefl in H.
    + exfalso.
      pose proof (StronglySorted_nth _ no_player _ j i S L Hi) as B.
      rewrite Ei, Ej in B. unfold ranks_before in B.
      rewrite !fltb_iff, !feqb_iff in B, H.
      unfold sf_lt, sf_eq in *. intuition lia.
  - intro H. rewrite Ri, Rj in H. assert (i < j)%nat as L by lia.
    pose proof (StronglySorted_nth _ no_player _ i j S L Hj) as B.
    rewrite Ei, Ej in B. unfold ranks_before in B.
    rewrite fleb_iff. rewrite !fltb_iff, !feqb_iff in B.
    unfold sf_lt, sf_eq in *. intuition lia.
Qed.

Lemma better_score_better_rank_witness :
  ((score (deref five 4%nat) <? score (deref five 0%nat))%float = true \/
   ((score (deref five 0%nat) =? score (deref five 4%nat))%float = true /\
    (rating (deref five 4%nat) < rating (deref five 0%nat))%Z) ->
   (rank (deref five 0%nat) < rank (deref five 4%nat))%Z) /\
  ((rank (deref five 0%nat) < rank (deref five 4%nat))%Z ->
   (score (deref five 4%nat) <=? score (deref five 0%nat))%float = true).
Proof.
  apply (better_score_better_rank five_records).
  - exact five_records_scored.
  - vm_compute; tauto.
  - vm_compute; tauto.
Defined.

(** ** Matching before the first round *)








(** ** Loading, again *)



Lemma update_ranks_In (ps : list Player) (p : Player) :
  In p (update_ranks ps) -> exists q k, In q ps /\ p = set_rank k q.
Proof.
  intro H. apply assign_ranks_In in H. destruct H as (q & k & Hq & ->).
  exists q, k. split; [|reflexivity].
  exact (Permutation_in _ (sort_by_perm key_ltb rank_key ps) Hq).
Qed.

Lemma update_ranks_from (ps : list Player) (q : Player) :
  In q ps -> exists k, In (set_rank k q) (update_ranks ps).
Proof.
  intro H. apply (in_map unranked) in H.
  apply (Permutation_in _ (Permutation_sym (update_ranks_perm ps))) in H.
  apply in_map_iff in H. destruct H as (p & E & Hp).
  exists (rank p). replace (set_rank (rank p) q) with p; [exact Hp|].
  destruct p, q. unfold unranked in E. cbn in *.
  now injection E as -> -> -> -> -> -> -> ->.
Qed.


Lemma count_two (a b : string) (l : list string) :
  a <> b ->
  (count_occ string_dec l a + count_occ string_dec l b <= List.length l)%nat.
Proof.
  intro Hab. induction l as [|x l IH]; [cbn; lia|].
  cbn [count_occ length].
  destruct (string_dec x a), (string_dec x b); subst; try congruence; lia.
Qed.

Lemma count_filter (x : string) (l : list string) :
  count x l = Z.of_nat (List.length (filter (String.eqb x) l)).
Proof.
  unfold count. f_equal. induction l as [|y l IH]; [reflexivity|].
  cbn [count_occ filter]. destruct (string_dec y x) as [->|N].
  - rewrite String.eqb_refl. cbn [length]. now rewrite IH.
  - destruct (String.eqb_spec x y) as [->|_]; [congruence|exact IH].
Qed.

Lemma new_Player_derived (i : string) (r : Z) (s : float)
    (history opps : list string) (bye : bool) (k : Z) :
  derived_ok (set_rank k (new_Player i r s history opps bye)) /\
  (Z.abs (color_balance (set_rank k (new_Player i r s history opps bye)))
   <= Z.of_nat (List.length
                  (color_history
                     (set_rank k (new_Player i r s history opps bye)))))%Z.
Proof.
  unfold derived_ok, games_as, new_Player, set_rank.
  cbn [color_balance color_history preferred_color].
  unfold calculate_color_balance, determine_preferred_color.
  rewrite <- !count_filter.
  pose proof (count_two "white" "black" history) as H.
  assert ("white" <> "black") as D by discriminate. specialize (H D).
  unfold count in *.
  destruct (Z.gtb_spec (Z.of_nat (count_occ string_dec history "white")
                        - Z.of_nat (count_occ string_dec history "black")) 0)
    as [G|G];
    [|destruct (Z.ltb_spec (Z.of_nat (count_occ string_dec history "white")
                            - Z.of_nat (count_occ string_dec history "black"))
                           0) as [L|L]];
    repeat split; intros; try discriminate; try reflexivity; lia.
Qed.

Section Loaded.
Variable py_str : pyval -> string.
Variable py_int : pyval -> result Z.
Variable py_float : pyval -> result float.

Lemma load_player_ok (d : player_data) (p : Player) :
  load_player py_str py_int py_float d = Ok p ->
  good_record py_int py_float d /\
  exists vi r s,
    pd_id d = Some vi /\
    p = new_Player (py_str vi) r s (get (pd_color_history d) [])
                   (get (pd_opponents d) []) (get (pd_has_bye d) false).
Proof.
  unfold load_player, subscript, good_record.
  destruct (pd_id d) as [vi|]; cbn [bind]; [|discriminate].
  destruct (pd_rating d) as [vr|]; cbn [bind]; [|discriminate].
  destruct (py_int vr) as [r|] eqn:Hr; cbn [bind]; [|discriminate].
  destruct (pd_score d) as [vs|]; cbn [bind]; [|discriminate].
  destruct (py_float vs) as [s|] eqn:Hs; cbn [bind]; [|discriminate].
  intros [= <-]. split.
  - exists vi, vr, vs, r, s. auto.
  - exists vi, r, s. auto.
Qed.

Lemma load_player_good (d : player_data) :
  good_record py_int py_float d ->
  exists p, load_player py_str py_int py_float d = Ok p.
Proof.
  intros (vi & vr & vs & r & s & Hi & Hr & Cr & Hs & Cs).
  unfold load_player, subscript. rewrite Hi, Hr, Hs. cbn [bind].
  rewrite Cr. cbn [bind]. rewrite Cs. cbn [bind]. eauto.
Qed.

Lemma load_players_ok (l : list player_data) (acc ps : list Player) :
  load_players py_str py_int py_float l acc = Ok ps ->
  exists ps',
    ps = acc ++ ps' /\
    Forall2 (fun d p => load_player py_str py_int py_float d = Ok p) l ps'.
Proof.
  revert acc. induction l as [|d l IH]; intros acc; cbn [load_players].
  - intros [= <-]. exists []. split; [now rewrite app_nil_r|constructor].
  - destruct (load_player py_str py_int py_float d) as [p|e] eqn:E;
      cbn [bind]; [|discriminate].
    intro H. destruct (IH _ H) as (ps' & -> & F).
    exists (p :: ps'). split; [now rewrite <- app_assoc|].
    now constructor.
Qed.

Lemma load_players_good (l : list player_data) (acc : list Player) :
  Forall (good_record py_int py_float) l ->
  exists ps, load_players py_str py_int py_float l acc = Ok ps.
Proof.
  intro H. revert acc. induction H as [|d l Hd _ IH]; intro acc.
  - now exists acc.
  - cbn [load_players]. destruct (load_player_good d Hd) as [p ->].
    cbn [bind]. apply IH.
Qed.

Lemma load_players_first_bad (front rest : list player_data)
    (d : player_data) (acc : list Player) (e : exn) :
  Forall (good_record py_int py_float) front ->
  load_player py_str py_int py_float d = Raise e ->
  load_players py_str py_int py_float (front ++ d :: rest) acc = Raise e.
Proof.
  intros H He. revert acc. induction H as [|d' l Hd _ IH]; intro acc.
  - cbn [app load_players]. now rewrite He.
  - cbn [app load_players]. destruct (load_player_good d' Hd) as [p ->].
    cbn [bind]. apply IH.
Qed.

Lemma new_Tournament_ok (json_data : option (list player_data))
    (t : Tournament) :
  new_Tournament py_str py_int py_float json_data = Ok t ->
  exists l ps,
    json_data = Some l /\
    Forall2 (fun d p => load_player py_str py_int py_float d = Ok p) l ps /\
    players t = update_ranks ps /\
    current_round t =
      match ps with
      | [] => 1%Z
      | _ :: _ => (Z.of_nat (max_games_of ps) + 1)%Z
      end.
Proof.
  unfold new_Tournament, load_from_json.
  destruct json_data as [l|]; [|discriminate]. cbn [players].
  destruct (load_players py_str py_int py_float l []) as [ps|e] eqn:E;
    cbn [bind]; [|discriminate].
  apply load_players_ok in E. destruct E as (ps' & -> & F).
  cbn [app]. intro H. exists l, ps'. split; [reflexivity|].
  split; [exact F|].
  destruct ps' as [|p ps']; cbn [bind] in H; injection H as <-; auto.
Qed.
End Loaded.

Lemma Forall2_In_right {A B : Type} (R : A -> B -> Prop) (l : list A)
    (l' : list B) (b : B) :
  Forall2 R l l' -> In b l' -> exists a, In a l /\ R a b.
Proof.
  induction 1 as [|a b' l l' H _ IH]; intro Hin; [destruct Hin|].
  destruct Hin as [->|Hin]; [exists a; split; [now left|exact H]|].
  destruct (IH Hin) as (a' & Ha & Hr). exists a'. split; [now right|exact Hr].
Qed.

Lemma Forall2_good (py_str : pyval -> string) (py_int : pyval -> result Z)
    (py_float : pyval -> result float) (l : list player_data)
    (ps : list Player) :
  Forall2 (fun d p => load_player py_str py_int py_float d = Ok p) l ps ->
  Forall (good_record py_int py_float) l /\ List.length ps = List.length l.
Proof.
  induction 1 as [|d p l ps H _ [IH1 IH2]]; [split; [constructor|reflexivity]|].
  split; [|cbn; now rewrite IH2].
  constructor; [|exact IH1]. now apply (load_player_ok py_str) in H.
Qed.

(** X9.  The constructor returns a snapshot exactly when the request has
    a ["players"] entry and every record has its three required fields
    with a rating and a score the conversions accept; the snapshot then
    has one player per record. *)
Theorem load_success (py_str : pyval -> string) (py_int : pyval -> result Z)
    (py_float : pyval -> result float) (json_data : option (list player_data)) :
  ((exists t, new_Tournament py_str py_int py_float json_data = Ok t) <->
   (exists l, json_data = Some l /\
              Forall (good_record py_int py_float) l)) /\
  (forall t l,
     new_Tournament py_str py_int py_float json_data = Ok t ->
     json_data = Some l ->
     List.length (players t) = List.length l).
Proof.
  split; [split|].
  - intros [t H]. apply new_Tournament_ok in H.
    destruct H as (l & ps & -> & F & _). exists l. split; [reflexivity|].
    now apply Forall2_good in F.
  - intros (l & -> & G).
    destruct (load_players_good py_str py_int py_float l [] G) as [ps E].
    unfold new_Tournament, load_from_json. cbn [players]. rewrite E.
    cbn [bind]. destruct ps; cbn [bind]; eauto.
  - intros t l H ->. apply new_Tournament_ok in H.
    destruct H as (l' & ps & [= <-] & F & -> & _).
    apply Forall2_good in F. rewrite update_ranks_length. apply F.
Qed.

(** X10.  The load stops at the first record it cannot accept: the error
    is the one of that record, whatever follows it, and within a record a
    missing id is reported before anything about the rating, and a
    missing rating before anything about the score. *)
Theorem first_error_wins (py_str : pyval -> string)
    (py_int : pyval -> result Z) (py_float : pyval -> result float)
    (front rest : list player_data) (d : player_data) :
  Forall (good_record py_int py_float) front ->
  bad_record py_int py_float d ->
  exists e,
    load_player py_str py_int py_float d = Raise e /\
    new_Tournament py_str py_int py_float (Some (front ++ d :: rest)) =
      Raise e /\
    (pd_id d = None -> e = KeyError "id") /\
    (pd_id d <> None -> pd_rating d = None -> e = KeyError "rating").
Proof.
  intros G B. destruct (load_player_bad py_str py_int py_float d B) as [e He].
  exists e. split; [exact He|]. split; [|split].
  - unfold new_Tournament, load_from_json. cbn [players].
    now rewrite (load_players_first_bad py_str py_int py_float
                   front rest d [] e G He).
  - intro H. unfold load_player, subscript in He. rewrite H in He.
    cbn [bind] in He. congruence.
  - intros H1 H2. unfold load_player, subscript in He.
    destruct (pd_id d); [|congruence]. rewrite H2 in He.
    cbn [bind] in He. congruence.
Qed.

Lemma first_error_wins_witness :
  exists e,
    load_player typed_str typed_int typed_float no_rating = Raise e /\
    new_Tournament typed_str typed_int typed_float
      (Some ([with_rating (VInt 1500)] ++ no_rating :: [no_rating])) =
      Raise e /\
    (pd_id no_rating = None -> e = KeyError "id") /\
    (pd_id no_rating <> None -> pd_rating no_rating = None ->
     e = KeyError "rating").
Proof.
  apply (first_error_wins typed_str typed_int typed_float
           [with_rating (VInt 1500)] [no_rating] no_rating).
  - constructor; [|constructor].
    exists (VStr "p1"), (VInt 1500), (VFloat 1), 1500%Z, 1%float.
    repeat split; reflexivity.
  - right. left. reflexivity.
Defined.

(** X11.  In every snapshot the constructor returns, each player's colour
    balance is the number of its whites minus the number of its blacks;
    its preferred colour is black when it had white more often, white
    when it had black more often, and none when as often; and the balance
    is at most the length of the colour history, in absolute value. *)
Theorem loaded_players_derived (py_str : pyval -> string)
    (py_int : pyval -> result Z) (py_float : pyval -> result float)
    (json_data : option (list player_data)) (t : Tournament) :
  new_Tournament py_str py_int py_float json_data = Ok t ->
  forall p, In p (players t) ->
    derived_ok p /\
    (Z.abs (color_balance p) <= Z.of_nat (List.length (color_history p)))%Z.
Proof.
  intros H p Hp. apply new_Tournament_ok in H.
  destruct H as (l & ps & _ & F & E & _). rewrite E in Hp.
  apply update_ranks_In in Hp. destruct Hp as (q & k & Hq & ->).
  destruct (Forall2_In_right _ _ _ _ F Hq) as (d & _ & Hd).
  apply load_player_ok in Hd. destruct Hd as (_ & vi & r & s & _ & ->).
  apply (new_Player_derived (py_str vi) r s).
Qed.

Lemma loaded_players_derived_witness :
  exists t,
    new_Tournament typed_str typed_int typed_float (dict_of request) = Ok t /\
    forall p, In p (players t) ->
      derived_ok p /\
      (Z.abs (color_balance p)
       <= Z.of_nat (List.length (color_history p)))%Z.
Proof.
  eexists. split; [vm_compute; reflexivity|].
  apply (loaded_players_derived typed_str typed_int typed_float
           (dict_of request)).
  vm_compute. reflexivity.
Defined.



(** ** The substring test *)

Lemma prefix_nil (s : string) : String.prefix "" s = true.
Proof. now destruct s. Qed.

Lemma prefix_app (a b y : string) :
  String.prefix a b = true -> String.prefix a (b ++ y) = true.
Proof.
  revert a. induction b as [|c b IH]; intros a H.
  - destruct a; [apply prefix_nil|discriminate].
  - destruct a as [|c' a]; [reflexivity|]. cbn in *.
    destruct (Ascii.ascii_dec c' c); [now apply IH|discriminate].
Qed.

Lemma prefix_refl (a : string) : String.prefix a a = true.
Proof.
  induction a as [|c a IH]; [reflexivity|]. cbn.
  now destruct (Ascii.ascii_dec c c).
Qed.

Lemma contains_prefix (a s : string) :
  String.prefix a s = true -> contains a s = true.
Proof.
  intro H. destruct s; cbn [contains]; now rewrite H.
Qed.

Lemma contains_app_r (a b y : string) :
  contains a b = true -> contains a (b ++ y) = true.
Proof.
  induction b as [|c b IH]; cbn [contains]; intro H.
  - rewrite orb_false_r in H. apply contains_prefix.
    now apply (prefix_app a "" y).
  - apply orb_true_iff in H. cbn [String.append contains].
    apply orb_true_iff. destruct H as [H|H].
    + left. exact (prefix_app a (String c b) y H).
    + right. now apply IH.
Qed.

Lemma contains_app_l (a x s : string) :
  contains a s = true -> contains a (x ++ s) = true.
Proof.
  intro H. induction x as [|c x IH]; [exact H|].
  cbn [String.append contains]. rewrite IH. apply orb_true_r.
Qed.

Lemma contains_warning (a : string) (q : Player) :
  contains a (id q) = true -> contains a (warning_of q) = true.
Proof.
  intro H. unfold warning_of. now apply contains_app_l, contains_app_r.
Qed.

(** ** The request handlers *)

Section Typed.
Variable py_str : pyval -> string.
Variable py_int : pyval -> result Z.
Variable py_float : pyval -> result float.
Hypothesis conv : typed py_str py_int py_float.

Lemma load_player_typed (p : PlayerInput) :
  load_player py_str py_int py_float (dict_of_player p) = Ok (player_of p).
Proof using conv.
  destruct conv as (Hs & Hi & Hf).
  unfold load_player, dict_of_player, subscript. cbn.
  rewrite Hi. cbn [bind]. rewrite Hf. cbn [bind]. now rewrite Hs.
Qed.

Lemma load_players_typed (l : list PlayerInput) (acc : list Player) :
  load_players py_str py_int py_float (map dict_of_player l) acc =
  Ok (acc ++ map player_of l).
Proof using conv.
  revert acc. induction l as [|p l IH]; intro acc; cbn [map load_players].
  - now rewrite app_nil_r.
  - rewrite load_player_typed. cbn [bind]. rewrite IH.
    now rewrite <- app_assoc.
Qed.

(** On a request the constructor cannot fail. *)
Lemma new_Tournament_typed (tournament_data : TournamentInput) :
  exists t,
    new_Tournament py_str py_int py_float (dict_of tournament_data) = Ok t /\
    players t = update_ranks (map player_of (in_players tournament_data)) /\
    current_round t =
      match in_players tournament_data with
      | [] => 1%Z
      | _ :: _ =>
          (Z.of_nat (max_games_of
                       (map player_of (in_players tournament_data))) + 1)%Z
      end.
Proof using conv.
  unfold new_Tournament, load_from_json, dict_of. cbn [players].
  rewrite load_players_typed. cbn [app bind].
  destruct (in_players tournament_data) as [|p l]; cbn [map bind];
    eexists; split; try reflexivity; split; reflexivity.
Qed.
End Typed.

Lemma run_sizes (st : list Player) (odd : list ref) (plan : list slot)
    (out : list Pairing) (st' : list Player) :
  run st odd plan out st' ->
  (List.length out <= List.length st <= 2 * List.length out)%nat.
Proof.
  intro Hrun. pose proof (Permutation_length (run_cover _ _ _ _ _ Hrun)) as L.
  rewrite !length_app, (games_length _ (run_games _ _ _ _ _ Hrun)) in L.
  unfold refs in L. rewrite length_seq in L.
  rewrite (run_out _ _ _ _ _ Hrun), !length_app, !length_map. lia.
Qed.

(** X13.  On every request [generate_pairings] answers with a result, never
    with an error.  The result echoes the system label, counts its
    pairings, of which there are at least half as many as players and at
    most as many, and gives as round one more than the longest colour
    history (1 without players). *)
Theorem generate_pairings_answers (py_str : pyval -> string)
    (py_int : pyval -> result Z) (py_float : pyval -> result float)
    (py_lower : string -> string) (tournament_data : TournamentInput) :
  typed py_str py_int py_float ->
  exists res,
    generate_pairings py_str py_int py_float py_lower tournament_data =
      Some (Respond res) /\
    res_system res = in_system tournament_data /\
    total_pairings res = Z.of_nat (List.length (res_pairings res)) /\
    (total_pairings res
     <= Z.of_nat (List.length (in_players tournament_data))
     <= 2 * total_pairings res)%Z /\
    round_number res =
      match in_players tournament_data with
      | [] => 1%Z
      | _ :: _ =>
          (Z.of_nat
             (fold_right
                (fun p m => Nat.max (List.length (in_color_history p)) m)
                0%nat (in_players tournament_data)) + 1)%Z
      end.
Proof.
  intro conv.
  destruct (new_Tournament_typed py_str py_int py_float conv tournament_data)
    as (t & Ht & Hp & Hc).
  destruct (compute_pairings_run _
              (update_ranks_ranked
                 (map player_of (in_players tournament_data))))
    as (odd & plan & out & st' & Hrun).
  unfold generate_pairings. rewrite Ht, Hp, (run_result _ _ _ _ _ Hrun).
  eexists. split; [reflexivity|].
  cbn [res_system total_pairings round_number res_pairings].
  split; [reflexivity|]. split; [reflexivity|]. split.
  - pose proof (run_sizes _ _ _ _ _ Hrun) as S.
    rewrite update_ranks_length, length_map in S.
    rewrite length_map. lia.
  - rewrite Hc. destruct (in_players tournament_data) as [|p l];
      [reflexivity|]. f_equal. f_equal.
    generalize (p :: l). intro l'. induction l' as [|q l' IH];
      [reflexivity|]. cbn [map max_games_of fold_right].
    fold (max_games_of (map player_of l')). now rewrite IH.
Qed.

Lemma generate_pairings_answers_witness :
  exists res,
    generate_pairings typed_str typed_int typed_float typed_lower request =
      Some (Respond res) /\
    res_system res = in_system request /\
    total_pairings res = Z.of_nat (List.length (res_pairings res)) /\
    (total_pairings res
     <= Z.of_nat (List.length (in_players request))
     <= 2 * total_pairings res)%Z /\
    round_number res =
      match in_players request with
      | [] => 1%Z
      | _ :: _ =>
          (Z.of_nat
             (fold_right
                (fun p m => Nat.max (List.length (in_color_history p)) m)
                0%nat (in_players request)) + 1)%Z
      end.
Proof.
  apply (generate_pairings_answers typed_str typed_int typed_float
           typed_lower request).
  repeat split; reflexivity.
Defined.

Lemma run_new_Pairing (st : list Player) (odd : list ref) (plan : list slot)
    (out : list Pairing) (st' : list Player) (p : Pairing) :
  run st odd plan out st' -> In p out ->
  exists w b, p = new_Pairing w b.
Proof.
  intros Hrun Hp. destruct (run_slots _ _ _ _ _ Hrun) as [-> _].
  apply in_map_iff in Hp. destruct Hp as (x & <- & _).
  destruct x as [r|w b]; cbn [slot_pairing].
  - now exists (id (deref st r)), "".
  - now exists (id (deref st w)), (id (deref st b)).
Qed.

(** X14.  In every result of [generate_pairings], whatever the ids, a
    pairing is flagged as a bye exactly when its black id is empty, and no
    black id is "0": a pairing whose opponent has the id "0" goes out as a
    bye of the white player. *)
Theorem response_invariant (py_str : pyval -> string)
    (py_int : pyval -> result Z) (py_float : pyval -> result float)
    (py_lower : string -> string) (tournament_data : TournamentInput)
    (res : PairingsResult) :
  generate_pairings py_str py_int py_float py_lower tournament_data =
    Some (Respond res) ->
  forall r, In r (res_pairings res) ->
    (resp_is_bye r = true <-> resp_black r = "") /\ resp_black r <> "0".
Proof.
  unfold generate_pairings.
  destruct (new_Tournament py_str py_int py_float (dict_of tournament_data))
    as [t|e] eqn:Ht; [|discriminate].
  apply new_Tournament_ok in Ht. destruct Ht as (l & ps & _ & _ & Hp & _).
  rewrite Hp.
  destruct (compute_pairings_run _ (update_ranks_ranked ps))
    as (odd & plan & out & st' & Hrun).
  rewrite (run_result _ _ _ _ _ Hrun). intros [= <-] r Hr.
  cbn [res_pairings] in Hr. apply in_map_iff in Hr.
  destruct Hr as (p & <- & Hin).
  destruct (run_new_Pairing _ _ _ _ _ p Hrun Hin) as (w & b & ->).
  unfold to_response. cbn [resp_is_bye resp_black].
  destruct (is_bye (new_Pairing w b)) eqn:E.
  - split; [tauto|discriminate].
  - cbn [new_Pairing is_bye black] in *. apply orb_false_iff in E.
    destruct E as [E1 E2]. apply String.eqb_neq in E1, E2.
    split; [|exact E2]. split; [discriminate|contradiction].
Qed.

Lemma response_invariant_witness :
  exists res,
    generate_pairings typed_str typed_int typed_float typed_lower request =
      Some (Respond res) /\
    forall r, In r (res_pairings res) ->
      (resp_is_bye r = true <-> resp_black r = "") /\ resp_black r <> "0".
Proof.
  eexists. split; [vm_compute; reflexivity|].
  apply (response_invariant typed_str typed_int typed_float typed_lower
           request).
  vm_compute. reflexivity.
Defined.

Lemma warning_listed (st : list Player) (p q : Player) :
  In q st -> mismatched q = true -> contains (id p) (id q) = true ->
  In (warning_of q) (info_warnings (info_of (warnings_of st) p)).
Proof.
  intros Hq Hm Hc. cbn [info_of info_warnings]. apply filter_In. split.
  - unfold warnings_of. apply in_map, filter_In. now split.
  - now apply contains_warning.
Qed.

Lemma snapshot_of_request (l : list PlayerInput) (pin : PlayerInput) :
  In pin l ->
  exists k, In (set_rank k (player_of pin)) (update_ranks (map player_of l)).
Proof.
  intro H. apply update_ranks_from. now apply in_map.
Qed.

Lemma request_of_snapshot (l : list PlayerInput) (p : Player) :
  In p (update_ranks (map player_of l)) ->
  exists pin k, In pin l /\ p = set_rank k (player_of pin).
Proof.
  intro H. apply update_ranks_In in H. destruct H as (q & k & Hq & ->).
  apply in_map_iff in Hq. destruct Hq as (pin & <- & Hpin). eauto.
Qed.

Section Check.
Variable py_str : pyval -> string.
Variable py_int : pyval -> result Z.
Variable py_float : pyval -> result float.
Hypothesis conv : typed py_str py_int py_float.

Lemma check_tournament_typed (tournament_data : TournamentInput) :
  exists info,
    check_tournament py_str py_int py_float tournament_data = Respond info /\
    total_players info =
      Z.of_nat (List.length (in_players tournament_data)) /\
    info_system info = in_system tournament_data /\
    info_players info =
      map (info_of (warnings_of
                      (update_ranks
                         (map player_of (in_players tournament_data)))))
          (update_ranks (map player_of (in_players tournament_data))).
Proof using conv.
  destruct (new_Tournament_typed py_str py_int py_float conv tournament_data)
    as (t & Ht & Hp & _).
  unfold check_tournament. rewrite Ht, Hp. eexists.
  split; [reflexivity|]. cbn [total_players info_system info_players].
  split; [|split; reflexivity].
  now rewrite update_ranks_length, length_map.
Qed.
End Check.

(** X15.  On every request [check_tournament] answers with a report,
    never with an error.  The report counts the players of the request
    and lists them in rank order: the ranks read 1, 2, 3, ... and the ids
    are those of the request. *)
Theorem check_tournament_report (py_str : pyval -> string)
    (py_int : pyval -> result Z) (py_float : pyval -> result float)
    (tournament_data : TournamentInput) :
  typed py_str py_int py_float ->
  exists info,
    check_tournament py_str py_int py_float tournament_data = Respond info /\
    total_players info =
      Z.of_nat (List.length (in_players tournament_data)) /\
    info_system info = in_system tournament_data /\
    map info_rank (info_players info) =
      map (fun i => (Z.of_nat i + 1)%Z)
          (seq 0 (List.length (in_players tournament_data))) /\
    Permutation (map info_id (info_players info))
                (map in_id (in_players tournament_data)).
Proof.
  intro conv.
  destruct (check_tournament_typed py_str py_int py_float conv
              tournament_data) as (info & H & Ht & Hs & Hp).
  exists info. split; [exact H|]. split; [exact Ht|]. split; [exact Hs|].
  rewrite Hp, !map_map. cbn [info_of info_rank info_id]. split.
  - change (fun x : Player => rank x) with rank.
    unfold update_ranks. rewrite assign_ranks_ranks, sort_by_length.
    rewrite length_map. apply map_ext. intro k. lia.
  - change (fun x : Player => id x) with id.
    rewrite (update_ranks_ids _), map_map. reflexivity.
Qed.

Lemma check_tournament_report_witness :
  exists info,
    check_tournament typed_str typed_int typed_float request = Respond info /\
    total_players info = Z.of_nat (List.length (in_players request)) /\
    info_system info = in_system request /\
    map info_rank (info_players info) =
      map (fun i => (Z.of_nat i + 1)%Z)
          (seq 0 (List.length (in_players request))) /\
    Permutation (map info_id (info_players info))
                (map in_id (in_players request)).
Proof.
  apply (check_tournament_report typed_str typed_int typed_float request).
  repeat split; reflexivity.
Defined.

(** X16.  [check_tournament] reports every inconsistent player: a player
    of the request whose colour history and opponent list differ in
    length has an entry in the report that lists its own warning. *)
Theorem mismatch_reported (py_str : pyval -> string)
    (py_int : pyval -> result Z) (py_float : pyval -> result float)
    (tournament_data : TournamentInput) (pin : PlayerInput) :
  typed py_str py_int py_float ->
  In pin (in_players tournament_data) ->
  List.length (in_color_history pin) <> List.length (in_opponents pin) ->
  exists info e,
    check_tournament py_str py_int py_float tournament_data = Respond info /\
    In e (info_players info) /\ info_id e = in_id pin /\
    In ("Player " ++ in_id pin ++ " has mismatched history lengths")%string
       (info_warnings e).
Proof.
  intros conv Hin Hne.
  destruct (check_tournament_typed py_str py_int py_float conv
              tournament_data) as (info & H & _ & _ & Hp).
  destruct (snapshot_of_request _ _ Hin) as [k Hk].
  exists info, (info_of (warnings_of
                  (update_ranks (map player_of (in_players tournament_data))))
                  (set_rank k (player_of pin))).
  split; [exact H|]. split; [rewrite Hp; now apply in_map|].
  split; [reflexivity|].
  apply (warning_listed _ _ (set_rank k (player_of pin)) Hk).
  - unfold mismatched. cbn. now apply negb_true_iff, Nat.eqb_neq.
  - apply contains_prefix, prefix_refl.
Qed.

Lemma mismatch_reported_witness :
  exists info e,
    check_tournament typed_str typed_int typed_float request = Respond info /\
    In e (info_players info) /\ info_id e = "p2" /\
    In "Player p2 has mismatched history lengths" (info_warnings e).
Proof.
  apply (mismatch_reported typed_str typed_int typed_float request
           {| in_id := "p2"; in_rating := 1600; in_score := 0;
              in_color_history := ["black"]; in_opponents := ["p1"; "p3"];
              in_has_bye := false |}).
  - repeat split; reflexivity.
  - right. left. reflexivity.
  - discriminate.
Defined.

(** X17.  The warnings are matched to entries by substring: the entry of
    a player lists the warning of every inconsistent player whose id
    contains its own id, so a consistent player "1" is listed with the
    warning of an inconsistent player "10". *)
Theorem warning_of_another (py_str : pyval -> string)
    (py_int : pyval -> result Z) (py_float : pyval -> result float)
    (tournament_data : TournamentInput) (pin qin : PlayerInput) :
  typed py_str py_int py_float ->
  In pin (in_players tournament_data) ->
  In qin (in_players tournament_data) ->
  List.length (in_color_history qin) <> List.length (in_opponents qin) ->
  contains (in_id pin) (in_id qin) = true ->
  exists info e,
    check_tournament py_str py_int py_float tournament_data = Respond info /\
    In e (info_players info) /\ info_id e = in_id pin /\
    In ("Player " ++ in_id qin ++ " has mismatched history lengths")%string
       (info_warnings e).
Proof.
  intros conv Hp Hq Hne Hc.
  destruct (check_tournament_typed py_str py_int py_float conv
              tournament_data) as (info & H & _ & _ & Hi).
  destruct (snapshot_of_request _ _ Hp) as [k Hk].
  destruct (snapshot_of_request _ _ Hq) as [k' Hk'].
  exists info, (info_of (warnings_of
                  (update_ranks (map player_of (in_players tournament_data))))
                  (set_rank k (player_of pin))).
  split; [exact H|]. split; [rewrite Hi; now apply in_map|].
  split; [reflexivity|].
  apply (warning_listed _ (set_rank k (player_of pin))
           (set_rank k' (player_of qin)) Hk').
  - unfold mismatched. cbn. now apply negb_true_iff, Nat.eqb_neq.
  - exact Hc.
Qed.

Lemma warning_of_another_witness :
  exists info e,
    check_tournament typed_str typed_int typed_float
      {| in_players :=
           [{| in_id := "1"; in_rating := 1500; in_score := 1;
               in_color_history := []; in_opponents := [];
               in_has_bye := false |};
            {| in_id := "10"; in_rating := 1500; in_score := 0;
               in_color_history := []; in_opponents := ["1"];
               in_has_bye := false |}];
         in_system := "dutch" |} = Respond info /\
    In e (info_players info) /\ info_id e = "1" /\
    In "Player 10 has mismatched history lengths" (info_warnings e).
Proof.
  apply (warning_of_another typed_str typed_int typed_float
           {| in_players :=
                [{| in_id := "1"; in_rating := 1500; in_score := 1;
                    in_color_history := []; in_opponents := [];
                    in_has_bye := false |};
                 {| in_id := "10"; in_rating := 1500; in_score := 0;
                    in_color_history := []; in_opponents := ["1"];
                    in_has_bye := false |}];
              in_system := "dutch" |}
           {| in_id := "1"; in_rating := 1500; in_score := 1;
              in_color_history := []; in_opponents := [];
              in_has_bye := false |}
           {| in_id := "10"; in_rating := 1500; in_score := 0;
              in_color_history := []; in_opponents := ["1"];
              in_has_bye := false |}).
  - repeat split; reflexivity.
  - left. reflexivity.
  - right. left. reflexivity.
  - discriminate.
  - reflexivity.
Defined.

(** X18.  Every warning in the report belongs to an inconsistent player
    of the request and contains the id of the entry that lists it; when
    every player is consistent, no entry lists a warning. *)
Theorem warnings_are_founded (py_str : pyval -> string)
    (py_int : pyval -> result Z) (py_float : pyval -> result float)
    (tournament_data : TournamentInput) :
  typed py_str py_int py_float ->
  exists info,
    check_tournament py_str py_int py_float tournament_data = Respond info /\
    (forall e w, In e (info_players info) -> In w (info_warnings e) ->
       contains (info_id e) w = true /\
       exists qin,
         In qin (in_players tournament_data) /\
         List.length (in_color_history qin)
           <> List.length (in_opponents qin) /\
         w = ("Player " ++ in_id qin
              ++ " has mismatched history lengths")%string) /\
    ((forall qin, In qin (in_players tournament_data) ->
        List.length (in_color_history qin)
          = List.length (in_opponents qin)) ->
     forall e, In e (info_players info) -> info_warnings e = []).
Proof.
  intro conv.
  destruct (check_tournament_typed py_str py_int py_float conv
              tournament_data) as (info & H & _ & _ & Hi).
  exists info. split; [exact H|].
  assert (forall e w, In e (info_players info) -> In w (info_warnings e) ->
            contains (info_id e) w = true /\
            exists qin,
              In qin (in_players tournament_data) /\
              List.length (in_color_history qin)
                <> List.length (in_opponents qin) /\
              w = ("Player " ++ in_id qin
                   ++ " has mismatched history lengths")%string) as Hw.
  { intros e w He Hin. rewrite Hi in He. apply in_map_iff in He.
    destruct He as (p & <- & _). cbn [info_of info_warnings info_id] in *.
    apply filter_In in Hin. destruct Hin as [Hin Hc]. split; [exact Hc|].
    unfold warnings_of in Hin. apply in_map_iff in Hin.
    destruct Hin as (q & <- & Hq). apply filter_In in Hq.
    destruct Hq as [Hq Hm]. apply request_of_snapshot in Hq.
    destruct Hq as (qin & k & Hqin & ->). exists qin.
    split; [exact Hqin|]. split; [|reflexivity].
    unfold mismatched in Hm. cbn in Hm.
    now apply negb_true_iff, Nat.eqb_neq in Hm. }
  split; [exact Hw|].
  intros Hall e He. destruct (info_warnings e) as [|w ws] eqn:E;
    [reflexivity|].
  destruct (Hw e w He) as (_ & qin & Hq & Hne & _);
    [rewrite E; now left|].
  exfalso. apply Hne, Hall, Hq.
Qed.

Lemma warnings_are_founded_witness :
  exists info,
    check_tournament typed_str typed_int typed_float request = Respond info /\
    (forall e w, In e (info_players info) -> In w (info_warnings e) ->
       contains (info_id e) w = true /\
       exists qin,
         In qin (in_players request) /\
         List.length (in_color_history qin)
           <> List.length (in_opponents qin) /\
         w = ("Player " ++ in_id qin
              ++ " has mismatched history lengths")%string) /\
    ((forall qin, In qin (in_players request) ->
        List.length (in_color_history qin)
          = List.length (in_opponents qin)) ->
     forall e, In e (info_players info) -> info_warnings e = []).
Proof.
  apply (warnings_are_founded typed_str typed_int typed_float request).
  repeat split; reflexivity.
Defined.

(** X19.  [add_player] never answers with status 400: for a round after
    the second, the 400 raised in the handler is caught by the handler's
    own [except Exception] and goes out as a 500.  For round 2 the player
    is flagged as a late joiner with a bye and its score is the binary64
    sum of its score and 0.5; for an earlier round nothing is changed. *)
Theorem add_player_outcome (player_data : PlayerInput) (round : Z) :
  ((round > 2)%Z ->
   add_player player_data round =
     Abort {| status_code := 500;
              http_detail :=
                CaughtHTTP "Error adding player: " 400
                  (Text "Cannot add players after round 2 has started") |}) /\
  ((round <= 2)%Z ->
   exists a p',
     add_player player_data round = Respond (a, p') /\
     message a = ("Player " ++ in_id player_data
                  ++ " added successfully")%string /\
     late_joiner a = (round =? 2)%Z /\ bye_awarded a = (round =? 2)%Z /\
     (round = 2%Z ->
      in_has_bye p' = true /\
      in_score p' = (in_score player_data + 0.5)%float) /\
     ((round < 2)%Z -> p' = player_data)) /\
  (forall h, add_player player_data round = Abort h ->
             status_code h = 500%Z).
Proof.
  unfold add_player, add_player_try.
  destruct (Z.gtb_spec round 2) as [H|H].
  - split; [reflexivity|]. split; [lia|]. now intros h [= <-].
  - split; [lia|]. split; [|discriminate]. intros _.
    destruct (Z.gtb_spec round 1) as [H1|H1].
    + assert (round = 2%Z) as -> by lia.
      eexists. eexists. split; [reflexivity|].
      cbn [message late_joiner bye_awarded in_id in_has_bye in_score].
      repeat split; try reflexivity; lia.
    + eexists. eexists. split; [reflexivity|].
      cbn [message late_joiner bye_awarded].
      assert ((round =? 2)%Z = false) as -> by (apply Z.eqb_neq; lia).
      repeat split; try reflexivity; lia.
Qed.

(** ** More on the engine *)

(** X20.  Which of two players is the anchor matters for the colours only
    when they are level in colour balance and in rating: otherwise
    [assign_colors] gives the same white and black in either order. *)
Theorem assign_colors_either_order (a b : Player) :
  color_balance a <> color_balance b \/ rating a <> rating b ->
  assign_colors a b = assign_colors b a.
Proof.
  intro H. unfold assign_colors.
  destruct (Z.gtb_spec (color_balance a) (color_balance b));
    destruct (Z.gtb_spec (color_balance b) (color_balance a));
    try reflexivity; try lia.
  destruct (Z.geb_spec (rating a) (rating b));
    destruct (Z.geb_spec (rating b) (rating a)); try reflexivity; lia.
Qed.

Lemma assign_colors_either_order_witness :
  assign_colors (deref five 0%nat) (deref five 1%nat) =
  assign_colors (deref five 1%nat) (deref five 0%nat).
Proof.
  apply assign_colors_either_order. right. vm_compute. discriminate.
Defined.

(** X21.  The pairings name players of the snapshot only: every white id
    is the id of a player, and every black id is empty or the id of a
    player. *)
Theorem ids_from_snapshot (ps : list Player) :
  exists out st',
    compute_pairings (update_ranks ps) = Some (Ok (out, st')) /\
    forall p, In p out ->
      In (white p) (map id ps) /\
      (black p = "" \/ In (black p) (map id ps)).
Proof.
  destruct (compute_pairings_run _ (update_ranks_ranked ps))
    as (odd & plan & out & st' & Hrun).
  exists out, st'. split; [apply Hrun|].
  destruct (run_slots _ _ _ _ _ Hrun) as [-> Hperm].
  assert (forall x r, In x (slots_of (update_ranks ps) odd plan) ->
                      In r (slot_refs x) ->
                      In (id (deref (update_ranks ps) r)) (map id ps)) as Hid.
  { intros x r Hx Hr.
    apply (Permutation_in _ (update_ranks_ids ps)), in_map.
    exact (slot_in_store _ _ _ _ Hperm Hx Hr). }
  intros p Hp. apply in_map_iff in Hp. destruct Hp as (x & <- & Hx).
  destruct x as [r|w b];
    cbn [slot_pairing bye_Pairing new_Pairing white black].
  - split; [apply (Hid _ r Hx); now left|now left].
  - split; [apply (Hid _ w Hx); now left|].
    right. apply (Hid _ b Hx). right. now left.
Qed.




